(** * Verification of the Lucky mastering engine (src/unnamed/part_005)

    Shallow embedding of the offline mastering pipeline: the preset
    catalog, the preset-to-DSP mapping, the WebAudio graph builders, the
    loudness and true-peak analysers, the two-pass orchestrator and the
    WAV encoder.

    Numeric modelling.  JavaScript numbers that the code only adds,
    multiplies, compares and clamps are modelled as exact rationals [Q];
    quantities produced by [Math.log10] and [Math.pow] are modelled as
    reals [R], together with the IEEE infinities and NaN where the code can
    produce them ([xR] below).  Byte buffers are lists of [Z] in 0..255. *)

From Stdlib Require Import List Arith Lia ZArith String Ascii Bool.
From Stdlib Require Import QArith Qabs Qminmax Qreals Reals Lqa Lra.
Import ListNotations.

Open Scope Q_scope.

(* ================================================================= *)
(** ** Utility (lines 183-185) *)

(** [clamp v min max = Math.max(min, Math.min(max, v))] *)
Definition clamp (v mn mx : Q) : Q := Qmax mn (Qmin mx v).

(* ================================================================= *)
(** ** Preset catalog ([presets], lines 24-121) *)

Inductive PresetKey :=
| deharsh | mudremover | basstamer | vintage | modern | lofi | neosoul
| festival | focus | immersive | wide | vocalforward | smoothmids
| dynamic | maximpact | bigcappo.

Definition all_presets : list PresetKey :=
  [deharsh; mudremover; basstamer; vintage; modern; lofi; neosoul;
   festival; focus; immersive; wide; vocalforward; smoothmids;
   dynamic; maximpact; bigcappo].

Record Settings := mkSettings {
  bass : Q; mid : Q; high : Q; compression : Q; loudness : Q;
  s_special : option string
}.

Record Preset := mkPreset {
  p_name : string; p_intent : string; p_description : string;
  p_settings : Settings
}.

Definition presets (k : PresetKey) : Preset :=
  match k with
  | deharsh => mkPreset "De-Harsh" "Control aggressive high-end transients"
      "Tames harsh 2.5-6kHz zones without losing energy."
      (mkSettings 0 (-1) (-3) 4 (-9) None)
  | mudremover => mkPreset "Mud Remover" "Clean up the 150-350Hz region"
      "Removes low-mid buildup to let the kick breathe."
      (mkSettings (-2) 2 1 2 (-9) None)
  | basstamer => mkPreset "Bass Tamer" "Stabilize wild 808s"
      "Heavy compression on lows with tight sub-filtering."
      (mkSettings 4 0 0 6 (-9) None)
  | vintage => mkPreset "Vintage Warmth" "Analog saturation feel"
      "Warm lows and softened highs for a classic vibe."
      (mkSettings 3 1 (-2) 3 (-9) None)
  | modern => mkPreset "Modern Bright" "Airy, high-definition sheen"
      "12kHz+ air shelf for that expensive studio feel."
      (mkSettings 1 0 4 3 (-9) None)
  | lofi => mkPreset "Lo-Fi Character" "Gritty, textured sound"
      "Limited bandwidth and subtle pumping effects."
      (mkSettings 2 (-2) (-4) 5 (-10) None)
  | neosoul => mkPreset "Neo Soul" "Deep, organic resonance"
      "Focus on warm mids and wide stereo depth."
      (mkSettings 2 3 1 2 (-9) None)
  | festival => mkPreset "Festival Banger" "Maximum energy and impact"
      "Aggressive limiting and sub-bass enhancement."
      (mkSettings 5 2 3 7 (-8.5) None)
  | focus => mkPreset "Focus Center" "Mono-compatible punch"
      "Tightens the stereo field for ultimate impact."
      (mkSettings 1 2 0 4 (-9) None)
  | immersive => mkPreset "Immersive" "3D Spatial depth"
      "Mid-Side rules applied for wrap-around sound."
      (mkSettings 0 1 3 2 (-9) None)
  | wide => mkPreset "Wide & Spacious" "Extreme stereo width"
      "Pushes high-end elements to the edges."
      (mkSettings (-1) 0 4 2 (-9) None)
  | vocalforward => mkPreset "Vocal Forward" "Lyrics front and center"
      "Boosts 1-4kHz presence and controls sub-mud."
      (mkSettings 1 5 2 4 (-9) None)
  | smoothmids => mkPreset "Smooth Mids" "Velvet frequency response"
      "Diplomatic approach to the mid-range."
      (mkSettings 1 (-2) 1 3 (-9) None)
  | dynamic => mkPreset "Dynamic & Clear" "Preserve transients"
      "Light compression with high-end clarity."
      (mkSettings 0 1 2 1.5 (-9.5) None)
  | maximpact => mkPreset "Maximum Impact" "Loud, punchy, aggressive"
      "Optimized for club systems and high volume."
      (mkSettings 4 3 3 6 (-8.5) None)
  | bigcappo => mkPreset "BigCappo (Signature)" "Emotional, human Trap-Soul"
      "Soft auto-tune feel with warm, expressive mids."
      (mkSettings 3 4 1 3 (-9) (Some "bigcappo"%string))
  end.

(* ================================================================= *)
(** ** DSP types (lines 123-180) *)

Inductive EQNodeSpec :=
| EQ_hpf (freq : Q) (order : option nat) (q : option Q)
| EQ_lowshelf (freq gainDb : Q) (q : option Q)
| EQ_highshelf (freq gainDb : Q) (q : option Q)
| EQ_bell (freq gainDb q : Q).

Record MultibandBandSpec := mkBand {
  ratio : Q; thresholdDb : Q; kneeDb : Q; attackSec : Q; releaseSec : Q
}.

Record MultibandSpec := mkMultiband {
  xoversHz : Q * Q * Q * Q;
  bands : MultibandBandSpec * MultibandBandSpec * MultibandBandSpec
          * MultibandBandSpec * MultibandBandSpec
}.

Record BusCompSpec := mkBusComp {
  bc_enabled : bool; bc_ratio : Q; bc_thresholdDb : Q; bc_kneeDb : Q;
  bc_attackSec : Q; bc_releaseSec : Q; sidechainHpfHz : option Q
}.

Record StereoSpec := mkStereo {
  monoBelowHz : option Q;
  overallWidth : option Q;
  widthHighOnly : option (Q * Q)   (* (freq, width) *)
}.

Record LimiterSpec := mkLimiter {
  l_thresholdDb : Q; l_ratio : Q; l_kneeDb : Q; l_attackSec : Q;
  l_releaseSec : Q
}.

Record OutputSpec := mkOutput {
  targetIntegratedLUFS : Q;
  ceilingDbFS : Q;
  limiter : LimiterSpec;
  trimClampMin : Q;
  trimClampMax : Q
}.

Record PresetDSP := mkDSP {
  eq : list EQNodeSpec;
  busComp : option BusCompSpec;
  multiband : MultibandSpec;
  stereo : StereoSpec;
  output : OutputSpec;
  special : option string
}.

(** [Partial<PresetDSP>]: every field optional. *)
Record PartialDSP := mkPartial {
  x_eq : option (list EQNodeSpec);
  x_busComp : option BusCompSpec;
  x_multiband : option MultibandSpec;
  x_stereo : option StereoSpec;
  x_output : option OutputSpec;
  x_special : option string
}.

(* ================================================================= *)
(** ** Fixed tables (lines 187-311) *)

Definition UNIVERSAL_OUTPUT : OutputSpec :=
  mkOutput (-14.0) (-0.5) (mkLimiter (-7.0) 20 0 0.001 0.10) (-24) 12.

(** [{ ...out, limiter: { ...out.limiter, thresholdDb: t } }] *)
Definition with_limiter_threshold (o : OutputSpec) (t : Q) : OutputSpec :=
  let l := limiter o in
  mkOutput (targetIntegratedLUFS o) (ceilingDbFS o)
    (mkLimiter t (l_ratio l) (l_kneeDb l) (l_attackSec l) (l_releaseSec l))
    (trimClampMin o) (trimClampMax o).

Definition MB_XOVERS : Q * Q * Q * Q := (120, 400, 2500, 6000).

Definition std_bands (r1 t1 r2 t2 r3 t3 r4 t4 r5 t5 : Q) :=
  (mkBand r1 t1 3 0.025 0.12, mkBand r2 t2 3 0.015 0.11,
   mkBand r3 t3 3 0.010 0.10, mkBand r4 t4 3 0.005 0.08,
   mkBand r5 t5 3 0.002 0.06).

Definition EXACT_PRESETS (k : PresetKey) : option PartialDSP :=
  match k with
  | smoothmids => Some (mkPartial
      (Some [EQ_hpf 40 (Some 2%nat) (Some 0.707); EQ_bell 250 (-1.5) 1.5;
             EQ_highshelf 4000 1.0 (Some 0.7)])
      None
      (Some (mkMultiband MB_XOVERS
        (std_bands 2.0 (-24) 2.0 (-22) 1.6 (-20) 1.5 (-18) 1.4 (-18))))
      (Some (mkStereo (Some 120) None (Some (150, 110))))
      (Some UNIVERSAL_OUTPUT)
      None)
  | dynamic => Some (mkPartial
      (Some [EQ_hpf 35 (Some 2%nat) (Some 0.707);
             EQ_highshelf 10000 1.5 (Some 0.7)])
      None
      (Some (mkMultiband MB_XOVERS
        (std_bands 3.0 (-26) 2.0 (-22) 1.6 (-20) 1.5 (-18) 1.4 (-18))))
      (Some (mkStereo (Some 120) (Some 115) None))
      (Some (with_limiter_threshold UNIVERSAL_OUTPUT (-7)))
      None)
  | maximpact => Some (mkPartial
      (Some [EQ_lowshelf 60 1.0 (Some 1.0); EQ_bell 350 (-2.0) 1.8;
             EQ_bell 8000 0.5 1.0])
      (Some (mkBusComp true 4.0 (-18) 6 0.03 0.10 (Some 100)))
      (Some (mkMultiband MB_XOVERS
        (std_bands 3.5 (-26) 2.5 (-23) 1.8 (-20) 1.6 (-18) 1.4 (-18))))
      (Some (mkStereo (Some 120) None (Some (4000, 125))))
      (Some (with_limiter_threshold UNIVERSAL_OUTPUT (-8)))
      None)
  | modern => Some (mkPartial
      (Some [EQ_bell 300 (-1.5) 2.0; EQ_highshelf 12000 2.0 (Some 0.7)])
      None
      (Some (mkMultiband MB_XOVERS
        (std_bands 2.5 (-25) 2.0 (-22) 1.5 (-19) 1.4 (-18) 1.3 (-18))))
      (Some (mkStereo (Some 120) None (Some (200, 120))))
      (Some (with_limiter_threshold UNIVERSAL_OUTPUT (-7)))
      None)
  | festival => Some (mkPartial
      (Some [EQ_lowshelf 50 1.5 (Some 0.8); EQ_bell 250 (-2.5) 2.0;
             EQ_highshelf 11000 1.0 (Some 0.7); EQ_bell 3200 (-1.0) 2.5])
      None
      (Some (mkMultiband MB_XOVERS
        (std_bands 5.0 (-28) 3.0 (-24) 1.8 (-20) 1.6 (-18) 1.4 (-18))))
      (Some (mkStereo (Some 100) None (Some (5000, 130))))
      (Some (with_limiter_threshold UNIVERSAL_OUTPUT (-9)))
      None)
  | bigcappo => Some (mkPartial None None None None None
                        (Some "bigcappo"%string))
  | _ => None
  end.

(* ================================================================= *)
(** ** [buildDSPForPreset] (lines 313-381) *)

(** The five slider-derived band ratios (lines 329-335). *)
Definition slider_ratios (s : Settings) : Q * Q * Q * Q * Q :=
  let comp := clamp (compression s) 1.5 7 in
  let lowRatio := clamp (1.8 + comp * 0.45) 1.6 5.0 in
  let lowMidRatio := clamp (1.6 + comp * 0.28) 1.4 3.5 in
  let midRatio := clamp (1.3 + comp * 0.12) 1.2 2.0 in
  let highMidRatio := clamp (1.2 + comp * 0.10) 1.2 1.8 in
  let highRatio := clamp (1.2 + comp * 0.08) 1.2 1.6 in
  (lowRatio, lowMidRatio, midRatio, highMidRatio, highRatio).

(** The slider-derived baseline [dsp] (lines 321-367). *)
Definition baselineDSP (key : PresetKey) (s : Settings) : PresetDSP :=
  let eq := [EQ_hpf 30 (Some 2%nat) (Some 0.707);
             EQ_lowshelf 120 (clamp (bass s) (-6) 6) (Some 1.0);
             EQ_bell 1500 (clamp (mid s) (-6) 6) 1.1;
             EQ_highshelf 12000 (clamp (high s) (-6) 6) (Some 0.7)] in
  let comp := clamp (compression s) 1.5 7 in
  let '(lowRatio, lowMidRatio, midRatio, highMidRatio, highRatio) :=
    slider_ratios s in
  let threshBase := -22 - (comp - 2) * 0.8 in
  let multiband := mkMultiband MB_XOVERS
    (std_bands lowRatio (threshBase - 2) lowMidRatio (threshBase - 1)
               midRatio (threshBase + 0) highMidRatio (threshBase + 1)
               highRatio (threshBase + 1)) in
  let stereo :=
    match key with
    | focus => mkStereo (Some 120) (Some 95) None
    | wide => mkStereo (Some 120) (Some 125) None
    | immersive => mkStereo (Some 120) (Some 118) None
    | _ => mkStereo (Some 120) (Some 110) None
    end in
  mkDSP eq None multiband stereo UNIVERSAL_OUTPUT (s_special s).

(** [a ?? b] *)
Definition coalesce {A} (a b : option A) : option A :=
  match a with Some _ => a | None => b end.

Definition buildDSPForPreset (key : PresetKey) : PresetDSP :=
  let exact := EXACT_PRESETS key in
  let s := p_settings (presets key) in
  let dsp := baselineDSP key s in
  match exact with
  | Some e =>
      mkDSP (match x_eq e with Some v => v | None => eq dsp end)
            (coalesce (x_busComp e) (busComp dsp))
            (match x_multiband e with Some v => v | None => multiband dsp end)
            (match x_stereo e with Some v => v | None => stereo dsp end)
            (match x_output e with Some v => v | None => output dsp end)
            (coalesce (x_special e) (special dsp))
  | None => dsp
  end.

(* ================================================================= *)
(** ** Checkable properties of a [PresetDSP] *)

Definition Qltb (x y : Q) : bool := negb (Qle_bool y x).

Definition xovers_increasing (m : MultibandSpec) : bool :=
  let '(x1, x2, x3, x4) := xoversHz m in
  Qltb x1 x2 && Qltb x2 x3 && Qltb x3 x4.

Definition band_list (m : MultibandSpec) : list MultibandBandSpec :=
  let '(b1, b2, b3, b4, b5) := bands m in [b1; b2; b3; b4; b5].

Definition band_ratios (m : MultibandSpec) : list Q := map ratio (band_list m).

Definition eq_gain (n : EQNodeSpec) : option Q :=
  match n with
  | EQ_hpf _ _ _ => None
  | EQ_lowshelf _ g _ | EQ_highshelf _ g _ | EQ_bell _ g _ => Some g
  end.

Definition eq_gains (l : list EQNodeSpec) : list Q :=
  flat_map (fun n => match eq_gain n with Some g => [g] | None => [] end) l.

Definition has_eq_override (k : PresetKey) : bool :=
  match EXACT_PRESETS k with
  | Some e => match x_eq e with Some _ => true | None => false end
  | None => false
  end.

Definition in_rangeb (lo hi x : Q) : bool := Qle_bool lo x && Qle_bool x hi.

Definition dsp_ok (k : PresetKey) (d : PresetDSP) : bool :=
  xovers_increasing (multiband d)
  && forallb (in_rangeb 1 20) (band_ratios (multiband d))
  && Qle_bool (ceilingDbFS (output d)) 0
  && (has_eq_override k || forallb (in_rangeb (-6) 6) (eq_gains (eq d))).

Fixpoint nonincreasing (l : list Q) : Prop :=
  match l with
  | x :: ((y :: _) as t) => y <= x /\ nonincreasing t
  | _ => True
  end.

(* ================================================================= *)
(** ** JavaScript numbers beyond [Q]

    [xR] is a JS number as it flows through [Math.log10], [Math.pow] and
    the trim arithmetic: a real, one of the two infinities, or NaN. *)

Inductive xR := XFin (r : R) | XPInf | XNInf | XNaN.

Definition xq (q : Q) : xR := XFin (Q2R q).
Arguments xq : simpl never.

Definition xadd (a b : xR) : xR :=
  match a, b with
  | XNaN, _ | _, XNaN => XNaN
  | XFin x, XFin y => XFin (x + y)%R
  | XPInf, XNInf | XNInf, XPInf => XNaN
  | XPInf, _ | _, XPInf => XPInf
  | XNInf, _ | _, XNInf => XNInf
  end.

Definition xneg (a : xR) : xR :=
  match a with
  | XFin x => XFin (- x)%R | XPInf => XNInf | XNInf => XPInf | XNaN => XNaN
  end.

Definition xsub (a b : xR) : xR := xadd a (xneg b).

(** [a < b]; every comparison with NaN is false. *)
Definition xlt (a b : xR) : bool :=
  match a, b with
  | XFin x, XFin y => if Rlt_dec x y then true else false
  | XNInf, XFin _ | XNInf, XPInf | XFin _, XPInf => true
  | _, _ => false
  end.

(** [Math.min(a, b)] and [Math.max(a, b)]. *)
Definition xmin (a b : xR) : xR :=
  match a, b with
  | XNaN, _ | _, XNaN => XNaN
  | _, _ => if xlt b a then b else a
  end.

Definition xmax (a b : xR) : xR :=
  match a, b with
  | XNaN, _ | _, XNaN => XNaN
  | _, _ => if xlt a b then b else a
  end.

Definition xclamp (v mn mx : xR) : xR := xmax mn (xmin mx v).

Definition log10 (x : R) : R := (ln x / ln 10)%R.

(** [dbToLin = db => Math.pow(10, db / 20)] *)
Definition dbToLin (db : xR) : xR :=
  match db with
  | XFin x => XFin (Rpower 10 (x / 20))
  | XPInf => XPInf
  | XNInf => XFin 0
  | XNaN => XNaN
  end.

(** [linToDb = lin => 20 * Math.log10(Math.max(1e-12, lin))] *)
Definition linToDb (lin : Q) : R := (20 * log10 (Rmax 1e-12 (Q2R lin)))%R.

(* ================================================================= *)
(** ** The WebAudio graph

    An [OfflineAudioContext] is modelled by the graph its builder calls
    produce: the next fresh node id, the created nodes with their ids
    (id 0 is the context's destination) and the list of [connect] edges
    [(from, to, output, input)].  Every node is recorded with the
    parameter values the code assigns right after creating it; a
    parameter the code leaves alone keeps the WebAudio default
    (biquad gain 0, gain-node gain 1). *)

Inductive BiquadType := lowpass | highpass | lowshelf | highshelf | peaking.

Inductive AudioNodeKind :=
| DestinationNode
| BufferSourceNode
| BiquadNode (type : BiquadType) (frequency Q gain : xR)
| GainNode (gain : xR)
| CompressorNode (ratio threshold knee attack release : xR)
| SplitterNode (n : nat)
| MergerNode (n : nat).

Record Graph := mkGraph {
  g_next : nat;
  g_nodes : list (nat * AudioNodeKind);
  g_edges : list (nat * nat * nat * nat)
}.

Definition destination : nat := 0.
Definition emptyGraph : Graph := mkGraph 1 [(destination, DestinationNode)] [].

(** The node with id [n]. *)
Definition node_at (g : Graph) (n : nat) : option AudioNodeKind :=
  option_map snd (find (fun p => Nat.eqb (fst p) n) (g_nodes g)).

(** The graph-building state monad. *)
Definition M (A : Type) : Type := Graph -> A * Graph.
Definition ret {A} (a : A) : M A := fun g => (a, g).
Definition bind {A B} (m : M A) (k : A -> M B) : M B :=
  fun g => let (a, g') := m g in k a g'.

Notation "x <- m ;; k" := (bind m (fun x => k))
  (at level 61, m at next level, right associativity).
Notation "m ;;; k" := (bind m (fun _ => k))
  (at level 61, right associativity).

Definition create (k : AudioNodeKind) : M nat :=
  fun g => (g_next g,
            mkGraph (S (g_next g)) (g_nodes g ++ [(g_next g, k)]) (g_edges g)).

(** [a.connect(b, output, input)] *)
Definition connect_port (a b o i : nat) : M unit :=
  fun g => (tt, mkGraph (g_next g) (g_nodes g) ((a, b, o, i) :: g_edges g)).

Definition connect (a b : nat) : M unit := connect_port a b 0 0.

Definition runGraph {A} (m : M A) : A * Graph := m emptyGraph.

Definition biquad (t : BiquadType) (f q gain : Q) : AudioNodeKind :=
  BiquadNode t (xq f) (xq q) (xq gain).

(** [spec.q ?? d] *)
Definition q_or (q : option Q) (d : Q) : Q :=
  match q with Some v => v | None => d end.

(** [applyFilterChain] (lines 384-431). *)
Fixpoint applyFilterChain (chain : nat) (eqs : list EQNodeSpec) : M nat :=
  match eqs with
  | [] => ret chain
  | spec :: rest =>
      match spec with
      | EQ_hpf f order q =>
          hp1 <- create (biquad highpass f (q_or q 0.707) 0) ;;
          connect chain hp1 ;;;
          match order with
          | Some 2%nat =>
              hp2 <- create (biquad highpass f (q_or q 0.707) 0) ;;
              connect hp1 hp2 ;;;
              applyFilterChain hp2 rest
          | _ => applyFilterChain hp1 rest
          end
      | EQ_lowshelf f g q =>
          n <- create (biquad lowshelf f (q_or q 1.0) g) ;;
          connect chain n ;;; applyFilterChain n rest
      | EQ_highshelf f g q =>
          n <- create (biquad highshelf f (q_or q 0.7) g) ;;
          connect chain n ;;; applyFilterChain n rest
      | EQ_bell f g q =>
          n <- create (biquad peaking f q g) ;;
          connect chain n ;;; applyFilterChain n rest
      end
  end.

(** [createBandSplit] (lines 433-481): the five band outputs. *)
Definition createBandSplit (input : nat) (xo : Q * Q * Q * Q)
  : M (nat * nat * nat * nat * nat) :=
  let '(x1, x2, x3, x4) := xo in
  let makeLP f := create (biquad lowpass f 0.707 0) in
  let makeHP f := create (biquad highpass f 0.707 0) in
  low <- makeLP x1 ;;
  lowMidHP <- makeHP x1 ;; lowMidLP <- makeLP x2 ;;
  midHP <- makeHP x2 ;; midLP <- makeLP x3 ;;
  highMidHP <- makeHP x3 ;; highMidLP <- makeLP x4 ;;
  high <- makeHP x4 ;;
  connect input low ;;;
  connect input lowMidHP ;;; connect lowMidHP lowMidLP ;;;
  connect input midHP ;;; connect midHP midLP ;;;
  connect input highMidHP ;;; connect highMidHP highMidLP ;;;
  connect input high ;;;
  ret (low, lowMidLP, midLP, highMidLP, high).

Definition compressor (r t k a rel : Q) : AudioNodeKind :=
  CompressorNode (xq r) (xq t) (xq k) (xq a) (xq rel).

(** One iteration of the [bands.forEach] loop of [applyMultiband]. *)
Definition bandComp (sum bandNode : nat) (b : MultibandBandSpec) : M unit :=
  c <- create (compressor (clamp (ratio b) 1.0 20.0) (thresholdDb b) (kneeDb b)
                 (clamp (attackSec b) 0.001 0.25)
                 (clamp (releaseSec b) 0.03 0.5)) ;;
  connect bandNode c ;;; connect c sum.

(** [applyMultiband] (lines 483-503). *)
Definition applyMultiband (input : nat) (spec : MultibandSpec) : M nat :=
  bs <- createBandSplit input (xoversHz spec) ;;
  sum <- create (GainNode (xq 1)) ;;
  let '(n1, n2, n3, n4, n5) := bs in
  let '(b1, b2, b3, b4, b5) := bands spec in
  bandComp sum n1 b1 ;;; bandComp sum n2 b2 ;;; bandComp sum n3 b3 ;;;
  bandComp sum n4 b4 ;;; bandComp sum n5 b5 ;;;
  ret sum.

(** JS truthiness of an optional number: [undefined] and [0] are falsy. *)
Definition truthy (x : option Q) : option Q :=
  match x with
  | Some v => if Qeq_bool v 0 then None else Some v
  | None => None
  end.

(** [applyBusComp] (lines 505-528). *)
Definition applyBusComp (input : nat) (spec : option BusCompSpec) : M nat :=
  match spec with
  | Some s =>
      if bc_enabled s then
        node <- match truthy (sidechainHpfHz s) with
                | Some f =>
                    hp <- create (biquad highpass f 0.707 0) ;;
                    connect input hp ;;; ret hp
                | None => ret input
                end ;;
        comp <- create (compressor (clamp (bc_ratio s) 1.0 20.0)
                          (bc_thresholdDb s) (bc_kneeDb s)
                          (clamp (bc_attackSec s) 0.001 0.25)
                          (clamp (bc_releaseSec s) 0.03 0.5)) ;;
        connect node comp ;;;
        ret comp
      else ret input
  | None => ret input
  end.

(** [applyStereoShaping] (lines 530-625). *)
Definition applyStereoShaping (input : nat) (st : StereoSpec)
  (numChannels : nat) : M nat :=
  if (numChannels <? 2)%nat then ret input else
  splitter <- create (SplitterNode 2) ;;
  merger <- create (MergerNode 2) ;;
  connect input splitter ;;;
  L <- create (GainNode (xq 1)) ;;
  R <- create (GainNode (xq 1)) ;;
  connect_port splitter L 0 0 ;;;
  connect_port splitter R 1 0 ;;;
  mid <- create (GainNode (xq 0.5)) ;;
  connect L mid ;;; connect R mid ;;;
  invR <- create (GainNode (xq (-1))) ;;
  connect R invR ;;;
  side <- create (GainNode (xq 0.5)) ;;
  connect L side ;;; connect invR side ;;;
  let ow := clamp (q_or (overallWidth st) 100 / 100) 0.5 1.6 in
  sideScaled <- create (GainNode (xq ow)) ;;
  connect side sideScaled ;;;
  outL <- create (GainNode (xq 1)) ;;
  outR <- create (GainNode (xq 1)) ;;
  connect mid outL ;;; connect sideScaled outL ;;;
  connect mid outR ;;;
  sideInv <- create (GainNode (xq (-1))) ;;
  connect sideScaled sideInv ;;; connect sideInv outR ;;;
  match truthy (monoBelowHz st) with
  | Some f =>
      lp <- create (biquad lowpass f 0.707 0) ;;
      connect side lp ;;;
      cancel <- create (GainNode (xq (-1))) ;;
      connect lp cancel ;;; connect cancel outL ;;;
      addBack <- create (GainNode (xq 1)) ;;
      connect lp addBack ;;; connect addBack outR
  | None => ret tt
  end ;;;
  match widthHighOnly st with
  | Some (f, w) =>
      hp <- create (biquad highpass f 0.707 0) ;;
      let targetWidth := clamp (w / 100) 0.5 1.8 in
      let extra := targetWidth - ow in
      if Qltb 0.01 (Qabs extra) then
        extraGain <- create (GainNode (xq extra)) ;;
        connect side hp ;;; connect hp extraGain ;;;
        connect extraGain outL ;;;
        extraInv <- create (GainNode (xq (-1))) ;;
        connect extraGain extraInv ;;; connect extraInv outR
      else ret tt
  | None => ret tt
  end ;;;
  connect_port outL merger 0 0 ;;;
  connect_port outR merger 0 1 ;;;
  ret merger.

(** [applyLimiterAndCeiling] (lines 627-648). *)
Definition applyLimiterAndCeiling (input : nat) (out : OutputSpec)
  (trimDb : xR) : M nat :=
  trim <- create (GainNode (dbToLin trimDb)) ;;
  connect input trim ;;;
  let l := limiter out in
  lim <- create (CompressorNode (xq (l_ratio l)) (xq (l_thresholdDb l))
                   (xq (l_kneeDb l)) (xq (l_attackSec l))
                   (xq (l_releaseSec l))) ;;
  connect trim lim ;;;
  ceiling <- create (GainNode (dbToLin (xq (ceilingDbFS out)))) ;;
  connect lim ceiling ;;;
  ret ceiling.

Inductive RenderMode := preOutput | final.

Definition warmthTrim : AudioNodeKind := biquad peaking 400 1.2 (-2).

Definition is_bigcappo (s : option string) : bool :=
  match s with Some v => String.eqb v "bigcappo" | None => false end.

(** The graph built by [renderPresetGraph] (lines 757-806) on an
    [OfflineAudioContext] with [nch] channels. *)
Definition buildRenderGraph (dsp : PresetDSP) (useAutoTune : bool)
  (mode : RenderMode) (trimDb : xR) (nch : nat) : M unit :=
  src <- create BufferSourceNode ;;
  safetyHPF <- create (biquad highpass 30 0.707 0) ;;
  connect src safetyHPF ;;;
  eqOut <- applyFilterChain safetyHPF (eq dsp) ;;
  tuned <- (if is_bigcappo (special dsp) || useAutoTune then
              w <- create warmthTrim ;;
              connect eqOut w ;;; ret w
            else ret eqOut) ;;
  busOut <- applyBusComp tuned (busComp dsp) ;;
  mbOut <- applyMultiband busOut (multiband dsp) ;;
  stereoOut <- applyStereoShaping mbOut (stereo dsp) nch ;;
  match mode with
  | preOutput => connect stereoOut destination
  | final =>
      finalOut <- applyLimiterAndCeiling stereoOut (output dsp) trimDb ;;
      connect finalOut destination
  end.

(** The K-weighting graph of [computeIntegratedLUFS_KWeighted]
    (lines 722-747). *)
Definition kWeightingGraph : M unit :=
  src <- create BufferSourceNode ;;
  hp <- create (biquad highpass 60 0.707 0) ;;
  shelf <- create (biquad highshelf 4000 0.707 4.0) ;;
  connect src hp ;;; connect hp shelf ;;; connect shelf destination.

(* ================================================================= *)
(** ** Audio buffers *)

Record AudioBuffer := mkBuffer {
  sampleRate : nat;
  blength : nat;
  channels : list (list Q)
}.

Definition numberOfChannels (b : AudioBuffer) : nat := List.length (channels b).

(** [buffer.getChannelData(c)[i]]. *)
Definition sample (b : AudioBuffer) (c i : nat) : Q :=
  nth i (nth c (channels b) []) 0.

(** A buffer as WebAudio hands it out: every channel has [length] samples. *)
Definition wf_buffer (b : AudioBuffer) : Prop :=
  Forall (fun ch => List.length ch = blength b) (channels b).

(* ================================================================= *)
(** ** True peak ([estimateTruePeakDbFS], lines 651-675) *)

(** Inner [k] loop: linear interpolation between [a] and [b]. *)
Definition interpPeak (oversample : nat) (a b : Q) (peak : Q) : Q :=
  fold_left (fun peak k =>
      let t := inject_Z (Z.of_nat k) / inject_Z (Z.of_nat oversample) in
      let s := a + (b - a) * t in
      Qmax peak (Qabs s))
    (seq 1 (oversample - 1)) peak.

(** The [i] loop over one channel. *)
Definition channelPeak (oversample len : nat) (data : list Q) (peak : Q) : Q :=
  fold_left (fun peak i =>
      let a := nth i data 0 in
      let b := nth (S i) data 0 in
      let peak := Qmax (Qmax peak (Qabs a)) (Qabs b) in
      interpPeak oversample a b peak)
    (seq 0 (len - 1)) peak.

Definition truePeakLin (buffer : AudioBuffer) (oversample : nat) : Q :=
  fold_left (fun peak c =>
      channelPeak oversample (blength buffer) (nth c (channels buffer) []) peak)
    (seq 0 (numberOfChannels buffer)) 0.

Definition estimateTruePeakDbFS (buffer : AudioBuffer) (oversample : nat) : R :=
  linToDb (truePeakLin buffer oversample).

(** The plain sample peak: the largest [|x|] over all samples. *)
Definition samplePeak (buffer : AudioBuffer) : Q :=
  fold_left Qmax
    (map Qabs (flat_map (firstn (blength buffer)) (channels buffer))) 0.

(* ================================================================= *)
(** ** Integrated loudness ([integratedLUFS_R128Gated], lines 682-720)

    [Math.floor(sr * 0.400)] and [Math.floor(sr * 0.100)] are computed
    exactly by nat division: the doubles nearest 0.4 and 0.1 lie above
    them, so the floating-point products never fall below an integer. *)

Definition blockLen (sr : nat) : nat := Nat.max 1 (sr * 4 / 10).
Definition stepLen (sr : nat) : nat := Nat.max 1 (sr / 10).
Definition absGateLUFS : R := (-70.0)%R.

(** [for (start = 0; start + blockLen <= length; start += step)]; the
    loop runs at most [length + 1] times, which is the fuel. *)
Fixpoint blockStarts (fuel start blen step len : nat) : list nat :=
  match fuel with
  | O => []
  | S f =>
      if (start + blen <=? len)%nat
      then start :: blockStarts f (start + step) blen step len
      else []
  end.

Definition Qsum (l : list Q) : Q := fold_left Qplus l 0.

(** The mean square of the block starting at [start]. *)
Definition blockMeanSquare (buffer : AudioBuffer) (blen start : nat) : Q :=
  let sum := fold_left (fun sum c =>
      let s := fold_left (fun s i => let x := sample buffer c i in s + x * x)
                 (seq start blen) 0 in
      sum + s / inject_Z (Z.of_nat blen))
    (seq 0 (numberOfChannels buffer)) 0 in
  sum / inject_Z (Z.of_nat (numberOfChannels buffer)).

Definition msToLUFS (ms : R) : R := (-0.691 + 10 * log10 (Rmax 1e-12 ms))%R.

Definition blockLUFS (buffer : AudioBuffer) : list R :=
  let sr := sampleRate buffer in
  map (fun start => msToLUFS (Q2R (blockMeanSquare buffer (blockLen sr) start)))
    (blockStarts (S (blength buffer)) 0 (blockLen sr) (stepLen sr)
       (blength buffer)).

(** [lufsBlocksToMeanSquare] (lines 677-680). *)
Definition lufsBlocksToMeanSquare (l : list R) : R :=
  (fold_left Rplus (map (fun x => Rpower 10 ((x + 0.691) / 10)) l) 0
   / INR (List.length l))%R.

Definition Rgtb (x y : R) : bool := if Rlt_dec y x then true else false.

Definition absGate (blocks : list R) : list R :=
  filter (fun l => Rgtb l absGateLUFS) blocks.

Definition ungatedLUFS (absGated : list R) : R :=
  msToLUFS (lufsBlocksToMeanSquare absGated).

Definition relGate (absGated : list R) : list R :=
  let rg := (ungatedLUFS absGated - 10.0)%R in
  filter (fun l => Rgtb l rg) absGated.

Definition integratedLUFS_R128Gated (buffer : AudioBuffer) : xR :=
  let blocks := blockLUFS buffer in
  match blocks with
  | [] => XNInf
  | _ =>
      let absGated := absGate blocks in
      match absGated with
      | [] => XFin absGateLUFS
      | _ =>
          let relGated := relGate absGated in
          match relGated with
          | [] => XFin (ungatedLUFS absGated)
          | _ => XFin (msToLUFS (lufsBlocksToMeanSquare relGated))
          end
      end
  end.

(* ================================================================= *)
(** ** Two-pass orchestrator (lines 750-836)

    [startRendering] is the browser's offline renderer: it runs a graph
    built on a fresh [OfflineAudioContext] whose buffer source plays the
    given buffer. *)

Section Orchestrator.

Variable startRendering : Graph -> AudioBuffer -> AudioBuffer.

Definition renderPresetGraph (audioBuffer : AudioBuffer) (dsp : PresetDSP)
  (useAutoTune : bool) (mode : RenderMode) (trimDb : xR) : AudioBuffer :=
  startRendering
    (snd (runGraph (buildRenderGraph dsp useAutoTune mode trimDb
                      (numberOfChannels audioBuffer))))
    audioBuffer.

Definition computeIntegratedLUFS_KWeighted (buffer : AudioBuffer) : xR :=
  integratedLUFS_R128Gated (startRendering (snd (runGraph kWeightingGraph)) buffer).

(** Lines 819-830: trim to the loudness target, enforce the ceiling,
    clamp. *)
Definition premiumTrim (out : OutputSpec) (integrated : xR) (tpPre : R) : xR :=
  let trimDb := xsub (xq (targetIntegratedLUFS out)) integrated in
  let predictedTP := xadd (XFin tpPre) trimDb in
  let trimDb :=
    if xlt (xq (ceilingDbFS out)) predictedTP
    then xmin trimDb (xsub (xq (ceilingDbFS out)) (XFin tpPre))
    else trimDb in
  xclamp trimDb (xq (trimClampMin out)) (xq (trimClampMax out)).

Definition processAudioPremium (audioBuffer : AudioBuffer) (presetKey : PresetKey)
  (useAutoTune : bool) : AudioBuffer :=
  let dsp := buildDSPForPreset presetKey in
  let pre := renderPresetGraph audioBuffer dsp useAutoTune preOutput (XFin 0) in
  let integrated := computeIntegratedLUFS_KWeighted pre in
  let tpPre := estimateTruePeakDbFS pre 4 in
  let trimDb := premiumTrim (output dsp) integrated tpPre in
  renderPresetGraph audioBuffer dsp useAutoTune final trimDb.

End Orchestrator.

(** The trim as the spec words it: loudness trim, then the peak-safety
    override, then the absolute clamp. *)
Definition spec_trim (out : OutputSpec) (measuredIntegratedLUFS : xR)
  (measuredTruePeak : R) : xR :=
  let step1 := xsub (xq (targetIntegratedLUFS out)) measuredIntegratedLUFS in
  let step2 :=
    if xlt (xq (ceilingDbFS out)) (xadd (XFin measuredTruePeak) step1)
    then xmin step1 (xsub (xq (ceilingDbFS out)) (XFin measuredTruePeak))
    else step1 in
  xmax (xq (trimClampMin out)) (xmin (xq (trimClampMax out)) step2).

(* ================================================================= *)
(** ** WAV export ([bufferToWav], lines 839-873)

    The [ArrayBuffer] is a list of bytes (each in 0..255).  A [DataView]
    write checks its range and raises [RangeError] outside it ([None]);
    the number written is converted with ToUint16 / ToUint32 (wrap
    modulo 2^16 / 2^32), or ToInt16 for [setInt16] (truncate towards
    zero, then wrap), and stored little-endian. *)

Open Scope Z_scope.

Fixpoint le_bytes (n : nat) (x : Z) : list Z :=
  match n with
  | O => []
  | S n' => (x mod 256) :: le_bytes n' (x / 256)
  end.

Definition write_bytes (v : list Z) (off : nat) (bs : list Z) : option (list Z) :=
  if (off + List.length bs <=? List.length v)%nat
  then Some (firstn off v ++ bs ++ skipn (off + List.length bs) v)
  else None.

Definition setUint8 (v : list Z) (off : nat) (x : Z) : option (list Z) :=
  write_bytes v off [x mod 256].
Definition setUint16 (v : list Z) (off : nat) (x : Z) : option (list Z) :=
  write_bytes v off (le_bytes 2 (x mod 2 ^ 16)).
Definition setUint32 (v : list Z) (off : nat) (x : Z) : option (list Z) :=
  write_bytes v off (le_bytes 4 (x mod 2 ^ 32)).

(** ToIntegerOrInfinity on a finite number: truncation towards zero. *)
Definition Qtrunc (x : Q) : Z := Z.quot (Qnum x) (Zpos (Qden x)).

Definition setInt16 (v : list Z) (off : nat) (x : Q) : option (list Z) :=
  setUint16 v off (Qtrunc x).

Definition obind {A B} (m : option A) (k : A -> option B) : option B :=
  match m with Some a => k a | None => None end.

Notation "x <-? m ;; k" := (obind m (fun x => k))
  (at level 61, m at next level, right associativity).

Fixpoint writeChars (v : list Z) (off : nat) (s : list Ascii.ascii)
  : option (list Z) :=
  match s with
  | [] => Some v
  | ch :: rest =>
      v' <-? setUint8 v off (Z.of_nat (Ascii.nat_of_ascii ch)) ;;
      writeChars v' (S off) rest
  end.

Definition writeString (v : list Z) (off : nat) (s : string) : option (list Z) :=
  writeChars v off (list_ascii_of_string s).

(** [sample < 0 ? sample * 0x8000 : sample * 0x7FFF] after the clamp. *)
Definition scaledSample (x : Q) : Q :=
  let s := Qmax (-1) (Qmin 1 x) in
  if Qltb s 0 then s * 32768 else s * 32767.

(** The interleaving loop: [offset] starts at 44. *)
Definition writeSamples (buffer : AudioBuffer) (st : option (list Z * nat))
  : option (list Z * nat) :=
  fold_left (fun st i =>
      fold_left (fun st ch =>
          p <-? st ;;
          let '(v, off) := p in
          v' <-? setInt16 v off (scaledSample (sample buffer ch i)) ;;
          Some (v', (off + 2)%nat))
        (seq 0 (numberOfChannels buffer)) st)
    (seq 0 (blength buffer)) st.

Definition bufferToWav (buffer : AudioBuffer) : option (list Z) :=
  let nch := numberOfChannels buffer in
  let length := (blength buffer * nch * 2)%nat in
  let v := repeat 0 (44 + length) in
  v <-? writeString v 0 "RIFF" ;;
  v <-? setUint32 v 4 (Z.of_nat (36 + length)) ;;
  v <-? writeString v 8 "WAVE" ;;
  v <-? writeString v 12 "fmt " ;;
  v <-? setUint32 v 16 16 ;;
  v <-? setUint16 v 20 1 ;;
  v <-? setUint16 v 22 (Z.of_nat nch) ;;
  v <-? setUint32 v 24 (Z.of_nat (sampleRate buffer)) ;;
  v <-? setUint32 v 28 (Z.of_nat (sampleRate buffer * nch * 2)) ;;
  v <-? setUint16 v 32 (Z.of_nat (nch * 2)) ;;
  v <-? setUint16 v 34 16 ;;
  v <-? writeString v 36 "data" ;;
  v <-? setUint32 v 40 (Z.of_nat length) ;;
  p <-? writeSamples buffer (Some (v, 44%nat)) ;;
  Some (fst p).

(** Reading a little-endian field back out of the bytes. *)
Fixpoint le_value (l : list Z) : Z :=
  match l with [] => 0 | b :: t => b + 256 * le_value t end.

Definition read_le (bytes : list Z) (off n : nat) : Z :=
  le_value (firstn n (skipn off bytes)).

Definition ascii_codes (s : string) : list Z :=
  map (fun ch => Z.of_nat (Ascii.nat_of_ascii ch)) (list_ascii_of_string s).

(** A signed 16-bit PCM sample read from its two bytes. *)
Definition decodeInt16 (bytes : list Z) (off : nat) : Z :=
  let u := read_le bytes off 2 in
  if u <? 2 ^ 15 then u else u - 2 ^ 16.

(** The PCM payload: every sample of every channel, interleaved. *)
Definition pcmSamples (buffer : AudioBuffer) : list Z :=
  flat_map (fun i =>
      map (fun ch => Qtrunc (scaledSample (sample buffer ch i)))
        (seq 0 (numberOfChannels buffer)))
    (seq 0 (blength buffer)).

(** The 44-byte header, field by field. *)
Definition wavHeader (sr S C : nat) : list Z :=
  let len := Z.of_nat (S * C * 2) in
  ascii_codes "RIFF" ++ le_bytes 4 ((36 + len) mod 2 ^ 32)
  ++ ascii_codes "WAVE" ++ ascii_codes "fmt "
  ++ le_bytes 4 16 ++ le_bytes 2 1
  ++ le_bytes 2 (Z.of_nat C mod 2 ^ 16)
  ++ le_bytes 4 (Z.of_nat sr mod 2 ^ 32)
  ++ le_bytes 4 (Z.of_nat (sr * C * 2) mod 2 ^ 32)
  ++ le_bytes 2 (Z.of_nat (C * 2) mod 2 ^ 16)
  ++ le_bytes 2 16
  ++ ascii_codes "data" ++ le_bytes 4 (len mod 2 ^ 32).

Close Scope Z_scope.

(* ================================================================= *)
(** ** Signal paths in a graph *)

Definition Edge : Type := (nat * nat * nat * nat)%type.

(** [reaches es a b]: the signal of node [a] flows into node [b]. *)
Inductive reaches (es : list Edge) : nat -> nat -> Prop :=
| reaches_refl a : reaches es a a
| reaches_step a b c o i : In (a, b, o, i) es -> reaches es b c -> reaches es a c.

(** A builder that only adds edges. *)
Definition mono {A} (m : M A) : Prop :=
  forall g, incl (g_edges g) (g_edges (snd (m g))).

(** A stage builder fed by [i]: it only adds nodes and edges, and the
    node it returns is fed (through the added edges) by [i]. *)
Definition builds (i : nat) (m : M nat) : Prop :=
  forall g, incl (g_nodes g) (g_nodes (snd (m g)))
            /\ incl (g_edges g) (g_edges (snd (m g)))
            /\ reaches (g_edges (snd (m g))) i (fst (m g)).

(** The nodes feeding node [n] directly. *)
Definition inputs_of (es : list Edge) (n : nat) : list nat :=
  map (fun e => let '(a, _, _, _) := e in a)
      (filter (fun e => let '(_, b, _, _) := e in Nat.eqb b n) es).

(** The buffer source (id 1, the first node [renderPresetGraph] creates)
    feeds the warmth node, which feeds the context's destination. *)
Definition warmth_on_path (g : Graph) : Prop :=
  In (1%nat, BufferSourceNode) (g_nodes g)
  /\ exists w, In (w, warmthTrim) (g_nodes g)
     /\ reaches (g_edges g) 1 w /\ reaches (g_edges g) w destination.

(** The [maximpact] bus compressor, and a context holding one buffer
    source (id 1). *)
Definition maximpactBusComp : BusCompSpec :=
  mkBusComp true 4.0 (-18) 6 0.03 0.10 (Some 100).

Definition sourceGraph : Graph :=
  mkGraph 2 [(destination, DestinationNode); (1%nat, BufferSourceNode)] [].

(** A silent mono buffer of 2^31 samples (about 13.5 hours at 44.1 kHz):
    its PCM payload is exactly 2^32 bytes.  The [ArrayBuffer] allocation
    is modelled as succeeding. *)
Definition wrapBuffer : AudioBuffer :=
  mkBuffer (Z.to_nat 44100) (Z.to_nat (2 ^ 31)) [repeat 0 (Z.to_nat (2 ^ 31))].

(** The PCM payload as bytes: each 16-bit sample little-endian. *)
Definition pcmBytes (buffer : AudioBuffer) : list Z :=
  flat_map (fun z => le_bytes 2 (z mod 2 ^ 16)%Z) (pcmSamples buffer).

(* ================================================================= *)
(** ** Graph shapes of the builders *)

(** A graph whose node ids and edge targets are all below [g_next]. *)
Definition wf_graph (g : Graph) : Prop :=
  Forall (fun p => (fst p < g_next g)%nat) (g_nodes g)
  /\ Forall (fun e : Edge => let '(_, b, _, _) := e in (b < g_next g)%nat)
       (g_edges g).

Fixpoint chain_back (g : Graph) (src : nat) (ks : list AudioNodeKind) (n : nat)
  : Prop :=
  match ks with
  | [] => n = src
  | k :: ks' => node_at g n = Some k
                /\ exists m, inputs_of (g_edges g) n = [m] /\ chain_back g src ks' m
  end.

Definition series (g : Graph) (src : nat) (ks : list AudioNodeKind) (n : nat)
  : Prop := chain_back g src (rev ks) n.

Definition fresh_stage {A} (m : M A) : Prop :=
  forall g, wf_graph g ->
    wf_graph (snd (m g)) /\ (g_next g <= g_next (snd (m g)))%nat
    /\ (forall n, (n < g_next g)%nat ->
          inputs_of (g_edges (snd (m g))) n = inputs_of (g_edges g) n
          /\ node_at (snd (m g)) n = node_at g n).

Definition lowpassAt (f : Q) : AudioNodeKind := biquad lowpass f 0.707 0.

Definition highpassAt (f : Q) : AudioNodeKind := biquad highpass f 0.707 0.

Definition bandCompressor (b : MultibandBandSpec) : AudioNodeKind :=
  compressor (clamp (ratio b) 1.0 20.0) (thresholdDb b) (kneeDb b)
    (clamp (attackSec b) 0.001 0.25) (clamp (releaseSec b) 0.03 0.5).

(** The filters [applyFilterChain] puts in series for an EQ list. *)
Fixpoint eqKinds (eqs : list EQNodeSpec) : list AudioNodeKind :=
  match eqs with
  | [] => []
  | EQ_hpf f order q :: rest =>
      let hp := biquad highpass f (q_or q 0.707) 0 in
      match order with
      | Some 2%nat => hp :: hp :: eqKinds rest
      | _ => hp :: eqKinds rest
      end
  | EQ_lowshelf f g q :: rest => biquad lowshelf f (q_or q 1.0) g :: eqKinds rest
  | EQ_highshelf f g q :: rest => biquad highshelf f (q_or q 0.7) g :: eqKinds rest
  | EQ_bell f g q :: rest => biquad peaking f q g :: eqKinds rest
  end.

Definition dest_free (g : Graph) : Prop :=
  wf_graph g /\ (0 < g_next g)%nat
  /\ inputs_of (g_edges g) destination = []
  /\ node_at g destination = Some DestinationNode.

Definition comp_in_range (k : AudioNodeKind) : Prop :=
  match k with
  | CompressorNode r _ _ a rel =>
      exists r' a' rel', r = xq r' /\ 1 <= r' <= 20 /\ a = xq a' /\ 0.001 <= a' <= 0.25
                         /\ rel = xq rel' /\ 0.03 <= rel' <= 0.5
  | _ => True
  end.

Definition limiterNode (out : OutputSpec) : AudioNodeKind :=
  let l := limiter out in
  CompressorNode (xq (l_ratio l)) (xq (l_thresholdDb l)) (xq (l_kneeDb l))
    (xq (l_attackSec l)) (xq (l_releaseSec l)).

(** A stage that adds nodes, and edges into new nodes or into the
    destination only. *)
Definition fresh_but_dest {A} (m : M A) : Prop :=
  forall g, wf_graph g -> (0 < g_next g)%nat ->
    wf_graph (snd (m g)) /\ (g_next g <= g_next (snd (m g)))%nat
    /\ (forall n, (n < g_next g)%nat ->
          node_at (snd (m g)) n = node_at g n
          /\ (n <> destination ->
              inputs_of (g_edges (snd (m g))) n = inputs_of (g_edges g) n)).

Definition frontGraph : Graph :=
  mkGraph 3 [(destination, DestinationNode); (1%nat, BufferSourceNode);
             (2%nat, highpassAt 30)] [(1%nat, 2%nat, 0%nat, 0%nat)].

Definition band_thresholds (m : MultibandSpec) : list Q :=
  map thresholdDb (band_list m).

(* ================================================================= *)
(** ** Sample encoding for export (MP3 path) *)

(** [Int16Array] element store (ToInt16): truncate, then wrap into
    [-32768, 32767]. *)
Definition toInt16Value (x : Q) : Z :=
  let u := (Qtrunc x mod 2 ^ 16)%Z in
  if (u <? 2 ^ 15)%Z then u else (u - 2 ^ 16)%Z.

(** [toInt16] of [bufferToMp3IfAvailable] (lines 884-891). *)
Definition toInt16 (f : list Q) : list Z :=
  map (fun x => toInt16Value (scaledSample x)) f.

Definition chunkSize : nat := 1152.

(** The arguments of the [enc.encodeBuffer] calls made by the loop
    [for (i = 0; i < left.length; i += chunkSize)]: [subarray(i, i +
    chunkSize)] of the left channel, and of the right one when
    [numChannels === 2 && right]; the fuel bounds the iterations. *)
Fixpoint mp3Chunks (fuel i : nat) (left : list Z) (right : option (list Z))
  (stereo : bool) : list (list Z * option (list Z)) :=
  match fuel with
  | O => []
  | S f =>
      if (i <? List.length left)%nat then
        (firstn chunkSize (skipn i left),
         if stereo then option_map (fun r => firstn chunkSize (skipn i r)) right
         else None)
        :: mp3Chunks f (i + chunkSize) left right stereo
      else []
  end.

(** The encoder calls of [bufferToMp3IfAvailable] (lines 875-917) once
    [lamejs] is loaded. *)
Definition mp3EncodeCalls (buffer : AudioBuffer) : list (list Z * option (list Z)) :=
  let numChannels := numberOfChannels buffer in
  let left := toInt16 (nth 0 (channels buffer) []) in
  let right := if (1 <? numChannels)%nat
               then Some (toInt16 (nth 1 (channels buffer) [])) else None in
  mp3Chunks (S (List.length left)) 0 left right (Nat.eqb numChannels 2).

(* ================================================================= *)
(** ** Render requests in the component ([applyPremiumProcessing], lines 1019-1050) *)

(** The component state [applyPremiumProcessing] reads and writes. *)
Record UIState := mkUIState {
  renderToken : nat;
  uiFile : option string;
  processedBuffer : option AudioBuffer;
  selectedPreset : PresetKey;
  isProcessing : bool;
  createdTracks : list (string * PresetKey)
}.

Definition setProcessing (b : bool) (s : UIState) : UIState :=
  mkUIState (renderToken s) (uiFile s) (processedBuffer s) (selectedPreset s) b (createdTracks s).

(** Up to the [await]: [setIsProcessing(true)], [token = ++renderTokenRef.current]. *)
Definition beginRender (s : UIState) : nat * UIState :=
  let t := S (renderToken s) in
  (t, mkUIState t (uiFile s) (processedBuffer s) (selectedPreset s) true (createdTracks s)).

(** After the [await] returned [processed]: the token check, the commit,
    the track mutation when a file is loaded, and the [finally]. *)
Definition finishRender (t : nat) (k : PresetKey) (processed : AudioBuffer) (s : UIState)
  : option AudioBuffer * UIState :=
  if Nat.eqb t (renderToken s) then
    (Some processed,
     mkUIState (renderToken s) (uiFile s) (Some processed) k false
       (match uiFile s with
        | Some name => createdTracks s ++ [(name, k)]
        | None => createdTracks s
        end))
  else (None, setProcessing false s).

(** The [await] threw: [catch] returns [null], [finally] clears the flag. *)
Definition failRender (s : UIState) : option AudioBuffer * UIState :=
  (None, setProcessing false s).

Inductive RenderEvent :=
| RenderStart
| RenderDone (t : nat) (k : PresetKey) (processed : AudioBuffer)
| RenderFailed.

Definition renderStep (s : UIState) (e : RenderEvent) : UIState :=
  match e with
  | RenderStart => snd (beginRender s)
  | RenderDone t k p => snd (finishRender t k p s)
  | RenderFailed => snd (failRender s)
  end.

Definition runRender (es : list RenderEvent) (s : UIState) : UIState :=
  fold_left renderStep es s.

Definition committed (s : UIState) :=
  (processedBuffer s, selectedPreset s, createdTracks s).

(* ================================================================= *)
(** ** Export file name ([exportAudio], line 1157) *)

Section ExportName.
Local Open Scope nat_scope.
Local Open Scope string_scope.

(** A preset key as the string [selectedPreset] holds. *)
Definition presetKeyString (k : PresetKey) : string :=
  match k with
  | deharsh => "deharsh" | mudremover => "mudremover" | basstamer => "basstamer"
  | vintage => "vintage" | modern => "modern" | lofi => "lofi"
  | neosoul => "neosoul" | festival => "festival" | focus => "focus"
  | immersive => "immersive" | wide => "wide" | vocalforward => "vocalforward"
  | smoothmids => "smoothmids" | dynamic => "dynamic" | maximpact => "maximpact"
  | bigcappo => "bigcappo"
  end.

Inductive ExportFormat := wav | mp3.

Definition formatString (f : ExportFormat) : string :=
  match f with wav => "wav" | mp3 => "mp3" end.

(** [String.prototype.split] with a one-character separator. *)
Fixpoint splitOn (c : ascii) (s : string) : list string :=
  match s with
  | EmptyString => [EmptyString]
  | String a r =>
      if Ascii.eqb a c then EmptyString :: splitOn c r
      else match splitOn c r with
           | [] => [String a EmptyString]
           | x :: xs => String a x :: xs
           end
  end.

(** [a.download] in [exportAudio] (line 1157). *)
Definition exportFileName (k : PresetKey) (name : string) (f : ExportFormat) : string :=
  "trapmaster-pro-" ++ presetKeyString k ++ "-"
  ++ nth 0 (splitOn "." name) "" ++ "." ++ formatString f.

Fixpoint countChar (c : ascii) (s : string) : nat :=
  match s with
  | EmptyString => 0
  | String a r => (if Ascii.eqb a c then 1 else 0) + countChar c r
  end.

End ExportName.

(* ================================================================= *)
(** ** Loudness blocks *)

Definition blockCount (blen step len : nat) : nat :=
  if (blen <=? len)%nat then ((len - blen) / step + 1)%nat else 0%nat.

Definition blockPower (y : R) : R := (Rpower 10 ((y + 0.691) / 10))%R.

Definition steadyBuffer : AudioBuffer := mkBuffer 10 4 [[1; 1; 1; 1]%Q].

(* ================================================================= *)
(** * Proofs *)

(** ** Helper lemmas *)

Ltac destruct_Rlt :=
  repeat match goal with
  | |- context [Rlt_dec ?a ?b] => destruct (Rlt_dec a b)
  | H : context [Rlt_dec ?a ?b] |- _ => destruct (Rlt_dec a b)
  end.

Lemma premiumTrim_spec_trim : forall out integ tp,
  premiumTrim out integ tp = spec_trim out integ tp.
Proof. reflexivity. Qed.

Lemma clamp_mono : forall v v' mn mn' mx mx',
  v <= v' -> mn <= mn' -> mx <= mx' -> clamp v mn mx <= clamp v' mn' mx'.
Proof.
  intros. unfold clamp. apply Q.max_le_compat; auto.
  apply Q.min_le_compat; auto.
Qed.

Lemma clamp_lower : forall v mn mx, mn <= clamp v mn mx.
Proof. intros. unfold clamp. apply Q.le_max_l. Qed.

Lemma band_ratios_baseline : forall key s,
  band_ratios (multiband (baselineDSP key s)) =
  let '(a, b, c, d, e) := slider_ratios s in [a; b; c; d; e].
Proof.
  intros. unfold baselineDSP.
  destruct (slider_ratios s) as [[[[a b] c] d] e]. reflexivity.
Qed.

Lemma dsp_ok_sound : forall key d, dsp_ok key d = true ->
  (let '(x1, x2, x3, x4) := xoversHz (multiband d) in
     x1 < x2 /\ x2 < x3 /\ x3 < x4)
  /\ Forall (fun r => 1 <= r <= 20) (band_ratios (multiband d))
  /\ ceilingDbFS (output d) <= 0
  /\ (has_eq_override key = false ->
      Forall (fun g => -6 <= g <= 6) (eq_gains (eq d))).
Proof.
  intros key d H. unfold dsp_ok in H.
  apply andb_prop in H as [H H4]. apply andb_prop in H as [H H3].
  apply andb_prop in H as [H1 H2].
  assert (Hlt : forall x y, Qltb x y = true -> x < y).
  { intros x y Hb. unfold Qltb in Hb. apply negb_true_iff in Hb.
    apply Qnot_le_lt. intro Hle. apply Qle_bool_iff in Hle. congruence. }
  assert (Hrng : forall lo hi l, forallb (in_rangeb lo hi) l = true ->
            Forall (fun r => lo <= r <= hi) l).
  { intros lo hi l Hl. apply Forall_forall. intros x Hx.
    rewrite forallb_forall in Hl. specialize (Hl x Hx).
    unfold in_rangeb in Hl. apply andb_prop in Hl as [Ha Hb].
    split; apply Qle_bool_iff; assumption. }
  repeat split.
  - unfold xovers_increasing in H1.
    destruct (xoversHz (multiband d)) as [[[x1 x2] x3] x4].
    apply andb_prop in H1 as [H1 H1c]. apply andb_prop in H1 as [H1a H1b].
    auto.
  - apply Hrng; assumption.
  - apply Qle_bool_iff; assumption.
  - intros Hno. rewrite Hno in H4. simpl in H4. apply Hrng; assumption.
Qed.

(** ** C1 *)

(** C1: for every preset, every input buffer and every outcome of the
    analysis pass, [processAudioPremium] renders its final pass with the
    trim obtained by exactly these steps in this order: loudness trim
    [target - measuredIntegratedLUFS]; if [measuredTruePeak + trim] exceeds
    the ceiling, [min(trim, ceiling - measuredTruePeak)]; then the clamp to
    [trimClampDb]. *)
Theorem processAudioPremium_trim_order :
  forall (startRendering : Graph -> AudioBuffer -> AudioBuffer)
         (buf : AudioBuffer) (key : PresetKey) (useAutoTune : bool),
  let dsp := buildDSPForPreset key in
  let pre := renderPresetGraph startRendering buf dsp useAutoTune preOutput (XFin 0) in
  processAudioPremium startRendering buf key useAutoTune =
  renderPresetGraph startRendering buf dsp useAutoTune final
    (spec_trim (output dsp)
       (computeIntegratedLUFS_KWeighted startRendering pre)
       (estimateTruePeakDbFS pre 4)).
Proof.
  intros. unfold processAudioPremium. rewrite premiumTrim_spec_trim.
  reflexivity.
Qed.

(** ** C2 *)

(** C2 (counterexample): the absolute clamp runs after the peak-safety
    override, so it can lift the trim back above [ceiling - truePeak].
    With the universal output spec, a measured loudness of 0 LUFS and a
    measured true peak of +30 dBFS, the override fires (30 - 14 > -0.5)
    but the final trim is the clamp floor -24 dB, and 30 - 24 > -0.5. *)
Lemma premiumTrim_ceiling_cex :
  let out := output (buildDSPForPreset deharsh) in
  xlt (xq (ceilingDbFS out))
      (xadd (XFin 30) (xsub (xq (targetIntegratedLUFS out)) (XFin 0))) = true
  /\ premiumTrim out (XFin 0) 30 = XFin (-24)
  /\ (30 + -24 > Q2R (ceilingDbFS out))%R.
Proof.
  cbv zeta. simpl output. unfold UNIVERSAL_OUTPUT, premiumTrim, xclamp,
    xmin, xmax, xsub, xadd, xneg, xlt, xq, Q2R. simpl.
  destruct_Rlt; try (exfalso; lra); repeat split; try lra;
    f_equal; lra.
Qed.

(** C2 (amended): whenever the peak-safety override fires, the final
    trim is a finite number; if the clamp floor still leaves room under
    the ceiling ([trimClampDb.min <= ceiling - truePeak]) the predicted
    post-trim peak [truePeak + trim] is at most the ceiling; otherwise the
    trim is exactly the clamp floor [trimClampDb.min]. *)
Theorem premiumTrim_peak_safe : forall out integrated tp,
  xlt (xq (ceilingDbFS out))
      (xadd (XFin tp) (xsub (xq (targetIntegratedLUFS out)) integrated)) = true ->
  exists r, premiumTrim out integrated tp = XFin r
    /\ ((Q2R (trimClampMin out) <= Q2R (ceilingDbFS out) - tp)%R ->
        (tp + r <= Q2R (ceilingDbFS out))%R)
    /\ ((Q2R (ceilingDbFS out) - tp < Q2R (trimClampMin out))%R ->
        r = Q2R (trimClampMin out)).
Proof.
  intros out integrated tp H.
  unfold premiumTrim, xclamp. rewrite H.
  unfold xq in *. set (c := Q2R (ceilingDbFS out)) in *.
  set (t := Q2R (targetIntegratedLUFS out)) in *.
  set (mn := Q2R (trimClampMin out)). set (mx := Q2R (trimClampMax out)).
  destruct integrated as [i| | |]; simpl in H |- *; destruct_Rlt;
    try discriminate; simpl; destruct_Rlt; simpl; destruct_Rlt; simpl;
    eexists; (split; [reflexivity|]); split; intros; lra.
Qed.

Lemma premiumTrim_peak_safe_witness :
  xlt (xq (ceilingDbFS UNIVERSAL_OUTPUT))
      (xadd (XFin (-3)) (xsub (xq (targetIntegratedLUFS UNIVERSAL_OUTPUT))
                               (XFin (-20)))) = true
  /\ exists r, premiumTrim UNIVERSAL_OUTPUT (XFin (-20)) (-3) = XFin r
    /\ ((Q2R (trimClampMin UNIVERSAL_OUTPUT)
           <= Q2R (ceilingDbFS UNIVERSAL_OUTPUT) - -3)%R ->
        (-3 + r <= Q2R (ceilingDbFS UNIVERSAL_OUTPUT))%R)
    /\ ((Q2R (ceilingDbFS UNIVERSAL_OUTPUT) - -3
           < Q2R (trimClampMin UNIVERSAL_OUTPUT))%R ->
        r = Q2R (trimClampMin UNIVERSAL_OUTPUT)).
Proof.
  assert (H : xlt (xq (ceilingDbFS UNIVERSAL_OUTPUT))
      (xadd (XFin (-3)) (xsub (xq (targetIntegratedLUFS UNIVERSAL_OUTPUT))
                               (XFin (-20)))) = true).
  { unfold UNIVERSAL_OUTPUT, xq, xsub, xadd, xneg, xlt, Q2R; simpl.
    destruct_Rlt; [reflexivity | exfalso; lra]. }
  split; [exact H | exact (premiumTrim_peak_safe _ _ _ H)].
Defined.

(** ** C3 *)

(** C3: for every preset of the catalog, [buildDSPForPreset] yields
    strictly increasing crossovers, band ratios in [1, 20], a ceiling at
    most 0 dBFS, and, for presets without a hand-authored EQ override,
    EQ gains in [-6, +6] dB. *)
Theorem buildDSPForPreset_invariants : forall key,
  let d := buildDSPForPreset key in
  (let '(x1, x2, x3, x4) := xoversHz (multiband d) in
     x1 < x2 /\ x2 < x3 /\ x3 < x4)
  /\ Forall (fun r => 1 <= r <= 20) (band_ratios (multiband d))
  /\ ceilingDbFS (output d) <= 0
  /\ (has_eq_override key = false ->
      Forall (fun g => -6 <= g <= 6) (eq_gains (eq d))).
Proof.
  intros key d. apply dsp_ok_sound. subst d.
  destruct key; vm_compute; reflexivity.
Qed.

(** ** C8 *)

(** C8: for every settings record (so every compression slider value,
    clamped to [1.5, 7] by the code), the five slider-derived band ratios
    of [buildDSPForPreset]'s baseline are non-increasing from the low band
    to the high band, and each of them is a non-decreasing function of the
    compression slider. *)
Theorem slider_ratios_ordered_monotone : forall key s,
  nonincreasing (band_ratios (multiband (baselineDSP key s)))
  /\ forall key' s', compression s <= compression s' ->
     Forall2 Qle (band_ratios (multiband (baselineDSP key s)))
                 (band_ratios (multiband (baselineDSP key' s'))).
Proof.
  intros key s. rewrite !band_ratios_baseline. unfold slider_ratios.
  assert (Hc : 1.5 <= clamp (compression s) 1.5 7) by apply clamp_lower.
  set (c := clamp (compression s) 1.5 7) in *.
  split.
  - simpl. repeat split; apply clamp_mono; Lqa.lra.
  - intros key' s' Hs. rewrite band_ratios_baseline. unfold slider_ratios.
    assert (Hcc : c <= clamp (compression s') 1.5 7)
      by (apply clamp_mono; Lqa.lra).
    set (c' := clamp (compression s') 1.5 7) in *.
    repeat constructor; apply clamp_mono; Lqa.lra.
Qed.

(** ** Graph-building lemmas *)

Lemma in_app_l : forall {A} (x : A) l m, In x l -> In x (l ++ m).
Proof. intros. apply in_or_app. left. assumption. Qed.

Lemma in_app_r : forall {A} (x : A) l m, In x m -> In x (l ++ m).
Proof. intros. apply in_or_app. right. assumption. Qed.

Lemma reaches_mono : forall es es' a b,
  incl es es' -> reaches es a b -> reaches es' a b.
Proof.
  intros es es' a b Hinc H. induction H.
  - apply reaches_refl.
  - eapply reaches_step; eauto.
Qed.

Lemma reaches_trans : forall es a b c,
  reaches es a b -> reaches es b c -> reaches es a c.
Proof.
  intros es a b c H. induction H; intros; auto.
  eapply reaches_step; eauto.
Qed.

Lemma builds_ret : forall i, builds i (ret i).
Proof. intros i g. repeat split; [apply incl_refl.. | apply reaches_refl]. Qed.

Lemma builds_bind : forall i (m : M nat) (k : nat -> M nat),
  builds i m -> (forall a, builds a (k a)) -> builds i (bind m k).
Proof.
  intros i m k Hm Hk g. unfold bind.
  destruct (Hm g) as [Hn1 [Hi1 Hr1]]. destruct (m g) as [a g1]. simpl in *.
  destruct (Hk a g1) as [Hn2 [Hi2 Hr2]]. repeat split.
  - eapply incl_tran; eauto.
  - eapply incl_tran; eauto.
  - eapply reaches_trans; [eapply reaches_mono; eauto | exact Hr2].
Qed.

Lemma builds_create_connect : forall i K (k : nat -> M nat),
  (forall x, builds x (k x)) ->
  builds i (x <- create K ;; connect i x ;;; k x).
Proof.
  intros i K k Hk g. unfold bind, create, connect, connect_port. simpl.
  set (x := g_next g).
  set (g1 := mkGraph (S x) (g_nodes g ++ [(x, K)])
                     ((i, x, 0%nat, 0%nat) :: g_edges g)).
  destruct (Hk x g1) as [Hn [Hi Hr]]. repeat split.
  - intros e He. apply Hn. simpl. apply in_or_app. left. exact He.
  - intros e He. apply Hi. simpl. right. exact He.
  - eapply reaches_step; [apply Hi; simpl; left; reflexivity | exact Hr].
Qed.

Ltac pick_edge := simpl; ((left; reflexivity) + (right; pick_edge)).
Ltac find_path :=
  apply reaches_refl + (eapply reaches_step; [pick_edge | find_path]).
Ltac incl_prefix := let e := fresh "e" in let H := fresh "H" in
  intros e H; simpl; repeat right; exact H.
Ltac incl_nodes := repeat apply incl_appl; apply incl_refl.

Lemma applyFilterChain_builds : forall eqs i, builds i (applyFilterChain i eqs).
Proof.
  induction eqs as [|spec rest IH]; intros i; simpl.
  - apply builds_ret.
  - destruct spec as [f order q|f gn q|f gn q|f gn q];
      apply builds_create_connect; intros x; auto.
    destruct order as [[|[|[|n]]]|]; auto.
    apply builds_create_connect; auto.
Qed.

Lemma applyBusComp_builds : forall spec i, builds i (applyBusComp i spec).
Proof.
  intros [s|] i; simpl; [|apply builds_ret].
  destruct (bc_enabled s); [|apply builds_ret].
  apply builds_bind.
  - destruct (truthy (sidechainHpfHz s)).
    + apply builds_create_connect. intros; apply builds_ret.
    + apply builds_ret.
  - intros a. apply builds_create_connect. intros; apply builds_ret.
Qed.

Ltac run_builder :=
  cbv beta iota zeta delta [bind create connect connect_port ret bandComp
    applyMultiband createBandSplit applyStereoShaping applyLimiterAndCeiling
    fst snd g_next g_nodes g_edges].

Lemma applyMultiband_builds : forall spec i, builds i (applyMultiband i spec).
Proof.
  intros spec i g.
  destruct spec as [[[[x1 x2] x3] x4] [[[[b1 b2] b3] b4] b5]].
  run_builder. repeat split; [incl_nodes | incl_prefix | find_path].
Qed.

Lemma applyStereoShaping_builds : forall st n i,
  builds i (applyStereoShaping i st n).
Proof.
  intros st n i g. unfold applyStereoShaping.
  destruct (n <? 2)%nat; [apply builds_ret|].
  destruct (truthy (monoBelowHz st)); destruct (widthHighOnly st) as [[f w]|];
    run_builder;
    try destruct (Qltb _ _); run_builder;
    (split; [incl_nodes | split; [incl_prefix | find_path]]).
Qed.

Lemma applyLimiterAndCeiling_builds : forall out t i,
  builds i (applyLimiterAndCeiling i out t).
Proof.
  intros out t i. unfold applyLimiterAndCeiling.
  apply builds_create_connect; intros x. cbv zeta.
  apply builds_create_connect; intros y.
  apply builds_create_connect; intros z. apply builds_ret.
Qed.

Ltac run_graph :=
  cbv beta iota zeta delta [bind create connect connect_port ret runGraph
    emptyGraph];
  cbn [fst snd g_next g_nodes g_edges].

Ltac in_graph := eauto 12 using in_app_l, in_app_r, in_eq, in_cons.

(** Follow a signal path through the stage facts and the added edges. *)
Ltac close_path :=
  repeat first
    [ apply reaches_refl
    | eapply reaches_trans;
        [eapply reaches_mono; [|eassumption]; unfold incl; intros; in_graph|]
    | eapply reaches_step; [in_graph|] ].

(** Replace one stage call in the goal by its result, keeping the stage's
    [builds] facts. *)
Ltac open_stage :=
  match goal with
  | |- context [applyFilterChain ?i ?l ?g] =>
      generalize (applyFilterChain_builds l i g);
      destruct (applyFilterChain i l g) as [?o ?g']
  | |- context [applyBusComp ?i ?s ?g] =>
      generalize (applyBusComp_builds s i g);
      destruct (applyBusComp i s g) as [?o ?g']
  | |- context [applyMultiband ?i ?s ?g] =>
      generalize (applyMultiband_builds s i g);
      destruct (applyMultiband i s g) as [?o ?g']
  | |- context [applyStereoShaping ?i ?s ?n ?g] =>
      generalize (applyStereoShaping_builds s n i g);
      destruct (applyStereoShaping i s n g) as [?o ?g']
  | |- context [applyLimiterAndCeiling ?i ?s ?t ?g] =>
      generalize (applyLimiterAndCeiling_builds s t i g);
      destruct (applyLimiterAndCeiling i s t g) as [?o ?g']
  end;
  let N := fresh "N" in let E := fresh "E" in let Rc := fresh "Rc" in
  simpl; intros [N [E Rc]]; run_graph.

(** The signal path of the render graph with the warmth stage switched
    on: source (id 1) to the warmth node to the destination. *)
Lemma buildRenderGraph_warmth_path : forall dsp useAutoTune mode trimDb nch,
  is_bigcappo (special dsp) || useAutoTune = true ->
  warmth_on_path (snd (runGraph (buildRenderGraph dsp useAutoTune mode trimDb nch))).
Proof.
  intros dsp useAutoTune mode trimDb nch Hw. unfold warmth_on_path, buildRenderGraph.
  rewrite Hw. destruct mode; run_graph; do 4 open_stage;
    try open_stage.
  all: unfold incl in *.
  all: split; [eauto 12 using in_app_l, in_app_r, in_eq, in_cons|].
  all: exists (g_next g'); split;
         [eauto 12 using in_app_l, in_app_r, in_eq, in_cons|split].
  all: close_path.
Qed.

(** ** C10 *)

(** C10: for every preset (not only the one tagged [bigcappo]),
    [processAudioPremium] renders both of its passes with the caller's
    autoTune flag; when that flag is set, the graph [renderPresetGraph]
    builds for either pass (any mode, any trim, any channel count) puts
    the warmth node (peaking, 400 Hz, Q 1.2, -2 dB) on the signal path
    from the buffer source to the destination. More generally the warmth
    node is on that path, in both passes, whenever the spec's [special]
    is ["bigcappo"] or the flag is set; in particular the [bigcappo]
    preset gets it in both passes with autoTune off. *)
Theorem autoTune_warmth_both_passes :
  forall (startRendering : Graph -> AudioBuffer -> AudioBuffer)
         (buf : AudioBuffer) (key : PresetKey) (useAutoTune : bool),
  let dsp := buildDSPForPreset key in
  let pre := renderPresetGraph startRendering buf dsp useAutoTune preOutput (XFin 0) in
  processAudioPremium startRendering buf key useAutoTune =
    renderPresetGraph startRendering buf dsp useAutoTune final
      (premiumTrim (output dsp)
         (computeIntegratedLUFS_KWeighted startRendering pre)
         (estimateTruePeakDbFS pre 4))
  /\ (forall mode trimDb nch,
        warmth_on_path (snd (runGraph (buildRenderGraph dsp true mode trimDb nch))))
  /\ (forall mode trimDb nch,
        is_bigcappo (special dsp) || useAutoTune = true ->
        warmth_on_path (snd (runGraph (buildRenderGraph dsp useAutoTune mode trimDb nch))))
  /\ (forall mode trimDb nch,
        warmth_on_path (snd (runGraph
          (buildRenderGraph (buildDSPForPreset bigcappo) false mode trimDb nch)))).
Proof.
  intros. split; [reflexivity|]. split; [|split].
  - intros. apply buildRenderGraph_warmth_path. apply orb_true_r.
  - intros. apply buildRenderGraph_warmth_path. assumption.
  - intros. apply buildRenderGraph_warmth_path. reflexivity.
Qed.

(** ** C5 *)

(** C5 (counterexample): with the [maximpact] bus compressor
    (sidechain high-pass at 100 Hz), the node [applyBusComp] returns, the
    one the rest of the chain plays, is fed by the 100 Hz high-pass and
    by nothing else: the audible path is filtered. *)
Lemma applyBusComp_maximpact_cex :
  let '(out, g) := runGraph (src <- create BufferSourceNode ;;
                             applyBusComp src (busComp (buildDSPForPreset maximpact))) in
  node_at g 2 = Some (biquad highpass 100 0.707 0)
  /\ In (1%nat, 2%nat, 0%nat, 0%nat) (g_edges g)
  /\ inputs_of (g_edges g) out = [2%nat].
Proof.
  cbv beta iota zeta delta [runGraph bind create connect connect_port ret
    applyBusComp buildDSPForPreset EXACT_PRESETS busComp x_busComp coalesce
    bc_enabled sidechainHpfHz truthy fst snd g_next g_nodes g_edges emptyGraph].
  simpl. repeat split; auto.
Qed.

(** C5 (amended): when the bus compressor is enabled and its
    [sidechainHpfHz] is set (non-zero), [applyBusComp] creates a
    high-pass (Q 0.707) at that frequency fed by the input, feeds the
    compressor from that high-pass only, and returns the compressor: the
    high-pass is in series with the audible signal, so the output and the
    gain detection both see the filtered signal. *)
Theorem applyBusComp_sidechain_in_series : forall input s f g,
  bc_enabled s = true -> truthy (sidechainHpfHz s) = Some f ->
  applyBusComp input (Some s) g =
  (S (g_next g),
   mkGraph (S (S (g_next g)))
     ((g_nodes g ++ [(g_next g, biquad highpass f 0.707 0)])
      ++ [(S (g_next g),
           compressor (clamp (bc_ratio s) 1.0 20.0) (bc_thresholdDb s)
             (bc_kneeDb s) (clamp (bc_attackSec s) 0.001 0.25)
             (clamp (bc_releaseSec s) 0.03 0.5))])
     ((g_next g, S (g_next g), 0%nat, 0%nat)
      :: (input, g_next g, 0%nat, 0%nat) :: g_edges g)).
Proof.
  intros input s f g Hen Hsc. unfold applyBusComp. rewrite Hen, Hsc.
  reflexivity.
Qed.

Lemma applyBusComp_sidechain_in_series_witness :
  bc_enabled maximpactBusComp = true
  /\ truthy (sidechainHpfHz maximpactBusComp) = Some 100
  /\ applyBusComp 1 (Some maximpactBusComp) sourceGraph =
     (3%nat,
      mkGraph 4
        ((g_nodes sourceGraph ++ [(2%nat, biquad highpass 100 0.707 0)])
         ++ [(3%nat,
              compressor (clamp 4.0 1.0 20.0) (-18) 6 (clamp 0.03 0.001 0.25)
                (clamp 0.10 0.03 0.5))])
        [(2%nat, 3%nat, 0%nat, 0%nat); (1%nat, 2%nat, 0%nat, 0%nat)]).
Proof.
  split; [reflexivity|]. split; [reflexivity|].
  exact (applyBusComp_sidechain_in_series 1 maximpactBusComp 100 sourceGraph
           eq_refl eq_refl).
Defined.

(* ================================================================= *)
(** ** Loudness gating fallbacks *)

Lemma ln10_pos : (0 < ln 10)%R.
Proof. rewrite <- ln_1. apply ln_increasing; lra. Qed.

Lemma log10_floor : log10 1e-12 = (-12)%R.
Proof.
  unfold log10.
  replace 1e-12%R with (/ 10 ^ 12)%R by (simpl; lra).
  rewrite ln_Rinv by (apply pow_lt; lra).
  rewrite ln_pow by lra.
  replace (INR 12) with 12%R by (simpl; lra).
  pose proof ln10_pos. field. lra.
Qed.

(** Silence hits the [1e-12] floor: [-0.691 + 10 * (-12)]. *)
Lemma msToLUFS_floor : forall ms, (ms <= 1e-12)%R -> msToLUFS ms = (-120.691)%R.
Proof.
  intros ms H. unfold msToLUFS. rewrite Rmax_left by lra.
  rewrite log10_floor. lra.
Qed.

Lemma absGate_nil : forall l,
  (forall x, In x l -> x <= absGateLUFS)%R -> absGate l = [].
Proof.
  induction l as [|a l IH]; intros H; [reflexivity|].
  simpl. unfold Rgtb at 1. destruct (Rlt_dec absGateLUFS a) as [Hlt|_].
  - exfalso. specialize (H a (or_introl eq_refl)). lra.
  - apply IH. intros x Hx. apply H. right. exact Hx.
Qed.

Lemma fold_plus_zero : forall (f : nat -> Q) l s,
  (forall i, In i l -> f i == 0) ->
  fold_left (fun s i => s + f i) l s == s.
Proof.
  intros f l. induction l as [|a l IH]; intros s H; simpl; [reflexivity|].
  rewrite IH by (intros i Hi; apply H; right; exact Hi).
  rewrite (H a (or_introl eq_refl)). ring.
Qed.

Lemma sample_zero : forall b,
  Forall (Forall (fun x => x == 0)) (channels b) -> forall c i, sample b c i == 0.
Proof.
  intros b H c i. unfold sample. rewrite Forall_forall in H.
  destruct (nth_in_or_default c (channels b) []) as [Hin|Hd].
  - specialize (H _ Hin). rewrite Forall_forall in H.
    destruct (nth_in_or_default i (nth c (channels b) []) 0) as [Hi|Hd'].
    + apply H. exact Hi.
    + rewrite Hd'. reflexivity.
  - rewrite Hd. destruct i; reflexivity.
Qed.

Lemma blockMeanSquare_zero : forall b blen start,
  Forall (Forall (fun x => x == 0)) (channels b) ->
  blockMeanSquare b blen start == 0.
Proof.
  intros b blen start H. unfold blockMeanSquare. cbv zeta.
  rewrite fold_plus_zero.
  - unfold Qdiv. ring.
  - intros c _. rewrite fold_plus_zero.
    + unfold Qdiv. ring.
    + intros i _. rewrite (sample_zero b H c i). ring.
Qed.

Lemma blockLUFS_silent : forall b,
  Forall (Forall (fun x => x == 0)) (channels b) ->
  forall x, In x (blockLUFS b) -> x = (-120.691)%R.
Proof.
  intros b H x Hx. unfold blockLUFS in Hx. apply in_map_iff in Hx.
  destruct Hx as [start [<- _]]. apply msToLUFS_floor.
  rewrite (Qeq_eqR _ _ (blockMeanSquare_zero b _ start H)).
  unfold Q2R. simpl. lra.
Qed.

Lemma blockLUFS_nonempty : forall b,
  (blockLen (sampleRate b) <= blength b)%nat -> blockLUFS b <> [].
Proof.
  intros b H. unfold blockLUFS. simpl.
  destruct (blockLen (sampleRate b) <=? blength b)%nat eqn:E.
  - discriminate.
  - apply Nat.leb_nle in E. lia.
Qed.

Lemma integratedLUFS_total : forall b,
  integratedLUFS_R128Gated b = XNInf \/
  exists r, integratedLUFS_R128Gated b = XFin r.
Proof.
  intros b. unfold integratedLUFS_R128Gated. cbv zeta.
  destruct (blockLUFS b); [left; reflexivity|right].
  destruct (absGate _); [eauto|]. destruct (relGate _); eauto.
Qed.

Lemma integratedLUFS_abs_fallback : forall b,
  blockLUFS b <> [] -> absGate (blockLUFS b) = [] ->
  integratedLUFS_R128Gated b = XFin absGateLUFS.
Proof.
  intros b Hne Habs. unfold integratedLUFS_R128Gated. cbv zeta.
  rewrite Habs. destruct (blockLUFS b); [congruence|reflexivity].
Qed.

Lemma integratedLUFS_rel_fallback : forall b,
  absGate (blockLUFS b) <> [] -> relGate (absGate (blockLUFS b)) = [] ->
  integratedLUFS_R128Gated b = XFin (ungatedLUFS (absGate (blockLUFS b))).
Proof.
  intros b Hne Hrel. unfold integratedLUFS_R128Gated. cbv zeta.
  rewrite Hrel. destruct (absGate (blockLUFS b)) eqn:EA; [congruence|].
  destruct (blockLUFS b) eqn:EB; [discriminate|reflexivity].
Qed.

Lemma integratedLUFS_silent : forall b,
  Forall (Forall (fun x => x == 0)) (channels b) ->
  (blockLen (sampleRate b) <= blength b)%nat ->
  integratedLUFS_R128Gated b = XFin absGateLUFS.
Proof.
  intros b Hz Hlen. apply integratedLUFS_abs_fallback.
  - apply blockLUFS_nonempty. exact Hlen.
  - apply absGate_nil. intros x Hx.
    rewrite (blockLUFS_silent b Hz x Hx). unfold absGateLUFS. lra.
Qed.

(** C4: [integratedLUFS_R128Gated] is total: it returns [-Infinity] (no
    block at all) or a finite value, never NaN or an error.  When blocks
    exist but the absolute gate at -70 LUFS removes them all it returns
    -70; when the absolute gate keeps some block but the relative gate
    removes them all it returns the ungated estimate; and an all-zero
    buffer holding at least one complete 400 ms block yields -70. *)
Theorem integratedLUFS_R128Gated_fallbacks :
  (forall b, integratedLUFS_R128Gated b = XNInf \/
             exists r, integratedLUFS_R128Gated b = XFin r)
  /\ (forall b, blockLUFS b <> [] -> absGate (blockLUFS b) = [] ->
        integratedLUFS_R128Gated b = XFin absGateLUFS)
  /\ (forall b, absGate (blockLUFS b) <> [] ->
        relGate (absGate (blockLUFS b)) = [] ->
        integratedLUFS_R128Gated b = XFin (ungatedLUFS (absGate (blockLUFS b))))
  /\ (forall b, Forall (Forall (fun x => x == 0)) (channels b) ->
        (blockLen (sampleRate b) <= blength b)%nat ->
        integratedLUFS_R128Gated b = XFin absGateLUFS).
Proof.
  split; [exact integratedLUFS_total|].
  split; [exact integratedLUFS_abs_fallback|].
  split; [exact integratedLUFS_rel_fallback|exact integratedLUFS_silent].
Qed.

Lemma integratedLUFS_R128Gated_fallbacks_witness :
  Forall (Forall (fun x => x == 0)) (channels (mkBuffer 10 4 [[0%Q; 0%Q; 0%Q; 0%Q]]))
  /\ (blockLen (sampleRate (mkBuffer 10 4 [[0%Q; 0%Q; 0%Q; 0%Q]]))
      <= blength (mkBuffer 10 4 [[0%Q; 0%Q; 0%Q; 0%Q]]))%nat
  /\ integratedLUFS_R128Gated (mkBuffer 10 4 [[0%Q; 0%Q; 0%Q; 0%Q]]) = XFin absGateLUFS.
Proof.
  assert (Hz : Forall (Forall (fun x => x == 0))
                 (channels (mkBuffer 10 4 [[0%Q; 0%Q; 0%Q; 0%Q]])))
    by (repeat constructor).
  assert (Hl : (blockLen (sampleRate (mkBuffer 10 4 [[0%Q; 0%Q; 0%Q; 0%Q]]))
                <= blength (mkBuffer 10 4 [[0%Q; 0%Q; 0%Q; 0%Q]]))%nat)
    by (vm_compute; lia).
  split; [exact Hz|]. split; [exact Hl|].
  exact (proj2 (proj2 (proj2 integratedLUFS_R128Gated_fallbacks)) _ Hz Hl).
Defined.

(* ================================================================= *)
(** ** True peak versus sample peak

    A running maximum is characterised by the values it lies below:
    [fold_left g l p <= y] exactly when [p <= y] and every element's
    contribution lies below [y]. *)

Lemma fold_le_iff : forall {A} (g : Q -> A -> Q) (P : A -> Q -> Prop),
  (forall p a y, g p a <= y <-> p <= y /\ P a y) ->
  forall l p y, fold_left g l p <= y <-> p <= y /\ (forall a, In a l -> P a y).
Proof.
  intros A g P Hg l. induction l as [|a l IH]; intros p y; simpl.
  - split; [intros H; split; [exact H|contradiction] | tauto].
  - rewrite IH, Hg. split.
    + intros [[Hp Ha] Hl]. split; [exact Hp|].
      intros x [<-|Hx]; [exact Ha|exact (Hl x Hx)].
    + intros [Hp Hl]. split; [split; [exact Hp|apply Hl; left; reflexivity]|].
      intros x Hx. apply Hl. right. exact Hx.
Qed.

Lemma interp_t_range : forall os k, In k (seq 1 (os - 1)) ->
  0 <= inject_Z (Z.of_nat k) / inject_Z (Z.of_nat os) <= 1.
Proof.
  intros os k Hk. apply in_seq in Hk.
  assert (Hos : 0 < inject_Z (Z.of_nat os)).
  { change 0 with (inject_Z 0). rewrite <- Zlt_Qlt. lia. }
  split.
  - apply Qle_shift_div_l; [exact Hos|].
    rewrite Qmult_0_l. change 0 with (inject_Z 0). rewrite <- Zle_Qle. lia.
  - apply Qle_shift_div_r; [exact Hos|].
    rewrite Qmult_1_l. rewrite <- Zle_Qle. lia.
Qed.

(** Linear interpolation never leaves the hull of its endpoints. *)
Lemma interp_abs_le : forall a b t y, 0 <= t <= 1 ->
  Qabs a <= y -> Qabs b <= y -> Qabs (a + (b - a) * t) <= y.
Proof.
  intros a b t y [Ht0 Ht1] Ha Hb.
  apply Qabs_Qle_condition in Ha, Hb. apply Qabs_Qle_condition.
  destruct Ha, Hb. split; Lqa.nra.
Qed.

Lemma interpPeak_le_iff : forall os a b p y,
  interpPeak os a b p <= y <->
  p <= y /\ (forall k, In k (seq 1 (os - 1)) ->
    Qabs (a + (b - a) * (inject_Z (Z.of_nat k) / inject_Z (Z.of_nat os))) <= y).
Proof.
  intros os a b p y. unfold interpPeak.
  apply (fold_le_iff _ (fun k y =>
    Qabs (a + (b - a) * (inject_Z (Z.of_nat k) / inject_Z (Z.of_nat os))) <= y)).
  intros p' k y'. apply Q.max_lub_iff.
Qed.

(** One step of the channel loop raises the peak to the two samples of
    the pair; the interpolated points add nothing. *)
Lemma channel_step_le_iff : forall os (data : list Q) p i y,
  interpPeak os (nth i data 0) (nth (S i) data 0)
    (Qmax (Qmax p (Qabs (nth i data 0))) (Qabs (nth (S i) data 0))) <= y <->
  p <= y /\ (Qabs (nth i data 0) <= y /\ Qabs (nth (S i) data 0) <= y).
Proof.
  intros os data p i y. rewrite interpPeak_le_iff, !Q.max_lub_iff. split.
  - intros [[[Hp Ha] Hb] _]. tauto.
  - intros [Hp [Ha Hb]]. split; [tauto|].
    intros k Hk. apply interp_abs_le; [apply (interp_t_range os k Hk)|exact Ha|exact Hb].
Qed.

Lemma channelPeak_le_iff : forall os len data p y, (2 <= len)%nat ->
  channelPeak os len data p <= y <->
  p <= y /\ (forall j, (j < len)%nat -> Qabs (nth j data 0) <= y).
Proof.
  intros os len data p y Hlen. unfold channelPeak.
  rewrite (fold_le_iff _ (fun i y => Qabs (nth i data 0) <= y /\
                                     Qabs (nth (S i) data 0) <= y))
    by (intros; apply channel_step_le_iff).
  split; intros [Hp H]; split; try exact Hp.
  - intros j Hj. destruct (Nat.lt_ge_cases j (len - 1)) as [Hl|Hg].
    + apply (H j). apply in_seq. lia.
    + replace j with (S (len - 2)) by lia. apply (H (len - 2)%nat). apply in_seq. lia.
  - intros i Hi. apply in_seq in Hi. split; apply H; lia.
Qed.

Lemma truePeakLin_le_iff : forall b os y, (2 <= blength b)%nat ->
  truePeakLin b os <= y <->
  0 <= y /\ (forall c j, (c < numberOfChannels b)%nat -> (j < blength b)%nat ->
               Qabs (sample b c j) <= y).
Proof.
  intros b os y Hlen. unfold truePeakLin.
  rewrite (fold_le_iff _ (fun c y => forall j, (j < blength b)%nat ->
                                       Qabs (nth j (nth c (channels b) []) 0) <= y))
    by (intros; apply channelPeak_le_iff; exact Hlen).
  unfold sample. split; intros [H0 H]; split; try exact H0.
  - intros c j Hc Hj. apply H; [apply in_seq; lia|exact Hj].
  - intros c Hc j Hj. apply in_seq in Hc. apply H; [lia|exact Hj].
Qed.

Lemma samplePeak_le_iff : forall b y, wf_buffer b ->
  samplePeak b <= y <->
  0 <= y /\ (forall c j, (c < numberOfChannels b)%nat -> (j < blength b)%nat ->
               Qabs (sample b c j) <= y).
Proof.
  intros b y Hwf. unfold samplePeak.
  rewrite (fold_le_iff Qmax (fun x y => x <= y))
    by (intros; apply Q.max_lub_iff).
  unfold wf_buffer in Hwf. rewrite Forall_forall in Hwf.
  unfold sample, numberOfChannels. split; intros [H0 H]; split; try exact H0.
  - intros c j Hc Hj. apply H. apply in_map. apply in_flat_map.
    exists (nth c (channels b) []). split; [apply nth_In; exact Hc|].
    rewrite firstn_all2 by (rewrite Hwf by (apply nth_In; exact Hc); lia).
    apply nth_In. rewrite Hwf by (apply nth_In; exact Hc). exact Hj.
  - intros x Hx. apply in_map_iff in Hx. destruct Hx as [s [<- Hs]].
    apply in_flat_map in Hs. destruct Hs as [ch [Hch Hs]].
    apply In_nth with (d := []) in Hch. destruct Hch as [c [Hc <-]].
    rewrite firstn_all2 in Hs by (rewrite Hwf by (apply nth_In; exact Hc); lia).
    apply In_nth with (d := 0) in Hs. destruct Hs as [j [Hj <-]].
    apply H; [exact Hc|]. rewrite <- (Hwf (nth c (channels b) [])) by (apply nth_In; exact Hc).
    exact Hj.
Qed.

(** C9: on a well-formed buffer of at least two samples per channel,
    [estimateTruePeakDbFS] equals [20 * log10 (max 1e-12 m)] for the
    plain sample peak [m], whatever the oversampling factor: the
    interpolated points never raise the peak. *)
Theorem estimateTruePeakDbFS_sample_peak : forall b os,
  wf_buffer b -> (2 <= blength b)%nat ->
  estimateTruePeakDbFS b os = linToDb (samplePeak b).
Proof.
  intros b os Hwf Hlen. unfold estimateTruePeakDbFS, linToDb.
  assert (E : truePeakLin b os == samplePeak b).
  { apply Qle_antisym.
    - apply (proj2 (truePeakLin_le_iff b os _ Hlen)).
      apply (proj1 (samplePeak_le_iff b _ Hwf)). apply Qle_refl.
    - apply (proj2 (samplePeak_le_iff b _ Hwf)).
      apply (proj1 (truePeakLin_le_iff b os _ Hlen)). apply Qle_refl. }
  rewrite (Qeq_eqR _ _ E). reflexivity.
Qed.

Lemma estimateTruePeakDbFS_sample_peak_witness :
  wf_buffer (mkBuffer 4 2 [[(1 # 2)%Q; (-1)%Q]; [0%Q; (1 # 4)%Q]])
  /\ (2 <= blength (mkBuffer 4 2 [[(1 # 2)%Q; (-1)%Q]; [0%Q; (1 # 4)%Q]]))%nat
  /\ estimateTruePeakDbFS (mkBuffer 4 2 [[(1 # 2)%Q; (-1)%Q]; [0%Q; (1 # 4)%Q]]) 4 =
     linToDb (samplePeak (mkBuffer 4 2 [[(1 # 2)%Q; (-1)%Q]; [0%Q; (1 # 4)%Q]])).
Proof.
  assert (Hwf : wf_buffer (mkBuffer 4 2 [[(1 # 2)%Q; (-1)%Q]; [0%Q; (1 # 4)%Q]]))
    by (repeat constructor).
  assert (Hl : (2 <= blength (mkBuffer 4 2 [[(1 # 2)%Q; (-1)%Q]; [0%Q; (1 # 4)%Q]]))%nat)
    by (simpl; lia).
  split; [exact Hwf|]. split; [exact Hl|].
  exact (estimateTruePeakDbFS_sample_peak _ 4 Hwf Hl).
Defined.

(* ================================================================= *)
(** ** The WAV encoder *)

Lemma le_bytes_length : forall n x, List.length (le_bytes n x) = n.
Proof. induction n as [|n IH]; intros x; simpl; [reflexivity|rewrite IH; reflexivity]. Qed.

Lemma le_value_le_bytes : forall n y,
  le_value (le_bytes n y) = (y mod 2 ^ (8 * Z.of_nat n))%Z.
Proof.
  induction n as [|n IH]; intros y; cbn [le_bytes le_value].
  - symmetry. apply Z.mod_1_r.
  - rewrite IH. replace (8 * Z.of_nat (S n))%Z with (8 + 8 * Z.of_nat n)%Z by lia.
    rewrite Z.pow_add_r by lia.
    rewrite Z.rem_mul_r by (try apply Z.pow_pos_nonneg; lia).
    reflexivity.
Qed.

Lemma le_value_field : forall n m y, (m = 8 * Z.of_nat n)%Z ->
  le_value (le_bytes n (y mod 2 ^ m)) = (y mod 2 ^ m)%Z.
Proof. intros n m y ->. rewrite le_value_le_bytes. apply Zmod_mod. Qed.

Lemma skipn_zeros : forall k m,
  skipn k (repeat 0%Z m) = repeat 0%Z (m - k).
Proof.
  induction k as [|k IH]; intros m; [rewrite Nat.sub_0_r; reflexivity|].
  destruct m as [|m]; [reflexivity|]. simpl. apply IH.
Qed.

Lemma write_zeros : forall w m bs, (List.length bs <= m)%nat ->
  write_bytes (w ++ repeat 0%Z m) (List.length w) bs
  = Some (w ++ bs ++ repeat 0%Z (m - List.length bs)).
Proof.
  intros w m bs H. unfold write_bytes.
  rewrite length_app, repeat_length.
  destruct (Nat.leb_spec (List.length w + List.length bs) (List.length w + m)) as [_|Hc];
    [|lia].
  rewrite firstn_app, firstn_all, Nat.sub_diag, app_nil_r.
  rewrite skipn_app, skipn_all2 by lia. simpl.
  rewrite skipn_zeros.
  replace (List.length w + List.length bs - List.length w)%nat with (List.length bs) by lia.
  reflexivity.
Qed.

Lemma flat_map_cons1 : forall {A B} (f : A -> list B) a l,
  flat_map f (a :: l) = f a ++ flat_map f l.
Proof. reflexivity. Qed.

Lemma flat_map_length_const : forall {A B} k (f : A -> list B) l,
  (forall x, List.length (f x) = k) ->
  List.length (flat_map f l) = (k * List.length l)%nat.
Proof.
  intros A B k f l H. induction l as [|a l IH]; [simpl; lia|].
  rewrite flat_map_cons1, length_app, H, IH. simpl List.length. lia.
Qed.

Lemma writeSamples_channels : forall b i l w m, (2 * List.length l <= m)%nat ->
  fold_left (fun st ch =>
      p <-? st ;;
      let '(v, off) := p in
      v' <-? setInt16 v off (scaledSample (sample b ch i)) ;;
      Some (v', (off + 2)%nat))
    l (Some (w ++ repeat 0%Z m, List.length w))
  = Some (w ++ flat_map (fun ch =>
              le_bytes 2 (Qtrunc (scaledSample (sample b ch i)) mod 2 ^ 16)%Z) l
            ++ repeat 0%Z (m - 2 * List.length l),
          (List.length w + 2 * List.length l)%nat).
Proof.
  intros b i l. induction l as [|ch l IH]; intros w m H.
  - simpl. rewrite Nat.sub_0_r, Nat.add_0_r. reflexivity.
  - cbn [fold_left obind]. unfold setInt16, setUint16.
    rewrite write_zeros by (rewrite le_bytes_length; simpl in H; lia).
    cbn [obind]. rewrite le_bytes_length, app_assoc.
    set (e := le_bytes 2 (Qtrunc (scaledSample (sample b ch i)) mod 2 ^ 16)%Z).
    replace (List.length w + 2)%nat with (List.length (w ++ e))
      by (unfold e; rewrite length_app, le_bytes_length; reflexivity).
    rewrite IH by (simpl in H; lia).
    unfold e. rewrite length_app, le_bytes_length. cbn [List.length]. rewrite flat_map_cons1.
    rewrite <- !app_assoc.
    match goal with |- Some (_ ++ _ ++ _ ++ repeat _ ?a, ?x) = Some (_ ++ _ ++ _ ++ repeat _ ?c, ?y) =>
      replace a with c by lia; replace x with y by lia end.
    reflexivity.
Qed.

Lemma writeSamples_frames : forall b l w m,
  (2 * numberOfChannels b * List.length l <= m)%nat ->
  fold_left (fun st i =>
      fold_left (fun st ch =>
          p <-? st ;;
          let '(v, off) := p in
          v' <-? setInt16 v off (scaledSample (sample b ch i)) ;;
          Some (v', (off + 2)%nat))
        (seq 0 (numberOfChannels b)) st)
    l (Some (w ++ repeat 0%Z m, List.length w))
  = Some (w ++ flat_map (fun i => flat_map (fun ch =>
              le_bytes 2 (Qtrunc (scaledSample (sample b ch i)) mod 2 ^ 16)%Z)
              (seq 0 (numberOfChannels b))) l
            ++ repeat 0%Z (m - 2 * numberOfChannels b * List.length l),
          (List.length w + 2 * numberOfChannels b * List.length l)%nat).
Proof.
  intros b l. induction l as [|i l IH]; intros w m H.
  - simpl. rewrite Nat.mul_0_r, Nat.sub_0_r, Nat.add_0_r. reflexivity.
  - cbn [fold_left]. rewrite writeSamples_channels
      by (rewrite length_seq; simpl List.length in H; lia).
    rewrite length_seq, app_assoc.
    set (e := flat_map (fun ch =>
              le_bytes 2 (Qtrunc (scaledSample (sample b ch i)) mod 2 ^ 16)%Z)
              (seq 0 (numberOfChannels b))).
    assert (He : List.length e = (2 * numberOfChannels b)%nat).
    { unfold e. rewrite (flat_map_length_const 2) by (intros; apply le_bytes_length).
      rewrite length_seq. reflexivity. }
    replace (List.length w + 2 * numberOfChannels b)%nat with (List.length (w ++ e))
      by (rewrite length_app, He; reflexivity).
    rewrite IH by (simpl List.length in H; lia).
    rewrite length_app, He. cbn [List.length]. rewrite flat_map_cons1.
    rewrite <- !app_assoc.
    match goal with |- Some (_ ++ _ ++ _ ++ repeat _ ?a, ?x) = Some (_ ++ _ ++ _ ++ repeat _ ?c, ?y) =>
      replace a with c by lia; replace x with y by lia end.
    reflexivity.
Qed.
(** The header writes land on the zero-filled buffer in order. *)
Lemma bufferToWav_header : forall b,
  bufferToWav b =
  obind (writeSamples b
           (Some (wavHeader (sampleRate b) (blength b) (numberOfChannels b)
                  ++ repeat 0%Z (blength b * numberOfChannels b * 2), 44%nat)))
        (fun p => Some (fst p)).
Proof.
  intros b. unfold bufferToWav, wavHeader. cbv zeta.
  rewrite Nat2Z.inj_add.
  generalize (writeSamples b). intros ws.
  generalize (Z.of_nat (blength b * numberOfChannels b * 2)).
  generalize (Z.of_nat (sampleRate b * numberOfChannels b * 2)).
  generalize (Z.of_nat (numberOfChannels b * 2)).
  generalize (Z.of_nat (sampleRate b)).
  generalize (Z.of_nat (numberOfChannels b)).
  generalize (blength b * numberOfChannels b * 2)%nat.
  intros L z1 z2 z3 z4 z5.
  cbv beta iota delta [obind writeString writeChars list_ascii_of_string setUint8
    setUint16 setUint32 write_bytes le_bytes firstn skipn List.length app repeat
    Nat.add Nat.leb ascii_codes map].
  reflexivity.
Qed.

Lemma flat_map_flat_map1 : forall {A B C} (f : B -> list C) (g : A -> list B) l,
  flat_map f (flat_map g l) = flat_map (fun x => flat_map f (g x)) l.
Proof.
  intros A B C f g l. induction l as [|a l IH]; [reflexivity|].
  rewrite !flat_map_cons1, flat_map_app, IH. reflexivity.
Qed.

Lemma flat_map_map1 : forall {A B C} (f : B -> list C) (g : A -> B) l,
  flat_map f (map g l) = flat_map (fun x => f (g x)) l.
Proof.
  intros A B C f g l. induction l as [|a l IH]; [reflexivity|].
  simpl map. rewrite !flat_map_cons1, IH. reflexivity.
Qed.

Lemma wavHeader_length : forall sr S C, List.length (wavHeader sr S C) = 44%nat.
Proof. reflexivity. Qed.

Lemma pcmBytes_frames : forall b,
  pcmBytes b =
  flat_map (fun i => flat_map (fun ch =>
      le_bytes 2 (Qtrunc (scaledSample (sample b ch i)) mod 2 ^ 16)%Z)
      (seq 0 (numberOfChannels b))) (seq 0 (blength b)).
Proof.
  intros b. unfold pcmBytes, pcmSamples. rewrite flat_map_flat_map1.
  apply flat_map_ext. intros i. rewrite flat_map_map1. reflexivity.
Qed.

(** The whole file: the 44-byte header, then the PCM payload. *)
Lemma bufferToWav_layout : forall b,
  bufferToWav b =
  Some (wavHeader (sampleRate b) (blength b) (numberOfChannels b) ++ pcmBytes b).
Proof.
  intros b. rewrite bufferToWav_header. unfold writeSamples.
  rewrite <- (wavHeader_length (sampleRate b) (blength b) (numberOfChannels b)).
  rewrite writeSamples_frames by (rewrite length_seq; lia).
  cbn [obind fst]. rewrite length_seq, pcmBytes_frames.
  replace (blength b * numberOfChannels b * 2 - 2 * numberOfChannels b * blength b)%nat
    with 0%nat by lia.
  rewrite app_nil_r. reflexivity.
Qed.

Lemma read_le_skip : forall l r off n, (List.length l <= off)%nat ->
  read_le (l ++ r) off n = read_le r (off - List.length l) n.
Proof.
  intros l r off n H. unfold read_le.
  rewrite skipn_app, (skipn_all2 l H). reflexivity.
Qed.

Lemma read_le_here : forall l r off n, off = 0%nat -> List.length l = n ->
  read_le (l ++ r) off n = le_value l.
Proof.
  intros l r off n -> <-. unfold read_le. simpl skipn.
  rewrite firstn_app, firstn_all, Nat.sub_diag. simpl firstn.
  rewrite app_nil_r. reflexivity.
Qed.

Ltac read_field :=
  unfold wavHeader; rewrite <- !app_assoc;
  repeat (rewrite read_le_skip by (simpl; lia));
  rewrite read_le_here by (simpl; lia);
  first [reflexivity | apply le_value_field; reflexivity].

Ltac read_tag :=
  cbv beta iota delta [wavHeader ascii_codes le_bytes app firstn skipn map
    list_ascii_of_string]; reflexivity.

(** Every header field, read back little-endian. *)
Lemma wavHeader_fields : forall sr S C rest,
  firstn 4 (wavHeader sr S C ++ rest) = ascii_codes "RIFF"
  /\ read_le (wavHeader sr S C ++ rest) 4 4 = ((36 + Z.of_nat (S * C * 2)) mod 2 ^ 32)%Z
  /\ firstn 4 (skipn 8 (wavHeader sr S C ++ rest)) = ascii_codes "WAVE"
  /\ firstn 4 (skipn 12 (wavHeader sr S C ++ rest)) = ascii_codes "fmt "
  /\ read_le (wavHeader sr S C ++ rest) 16 4 = 16%Z
  /\ read_le (wavHeader sr S C ++ rest) 20 2 = 1%Z
  /\ read_le (wavHeader sr S C ++ rest) 22 2 = (Z.of_nat C mod 2 ^ 16)%Z
  /\ read_le (wavHeader sr S C ++ rest) 24 4 = (Z.of_nat sr mod 2 ^ 32)%Z
  /\ read_le (wavHeader sr S C ++ rest) 28 4 = (Z.of_nat (sr * C * 2) mod 2 ^ 32)%Z
  /\ read_le (wavHeader sr S C ++ rest) 32 2 = (Z.of_nat (C * 2) mod 2 ^ 16)%Z
  /\ read_le (wavHeader sr S C ++ rest) 34 2 = 16%Z
  /\ firstn 4 (skipn 36 (wavHeader sr S C ++ rest)) = ascii_codes "data"
  /\ read_le (wavHeader sr S C ++ rest) 40 4 = (Z.of_nat (S * C * 2) mod 2 ^ 32)%Z.
Proof.
  intros sr S C rest.
  repeat split; first [read_tag | read_field].
Qed.

Lemma read_le_pcm : forall l k, (k < List.length l)%nat ->
  read_le (flat_map (fun z => le_bytes 2 (z mod 2 ^ 16)%Z) l) (2 * k) 2
  = (nth k l 0%Z mod 2 ^ 16)%Z.
Proof.
  induction l as [|z l IH]; intros k H; [simpl in H; lia|].
  rewrite flat_map_cons1. destruct k as [|k].
  - rewrite read_le_here by (try rewrite le_bytes_length; reflexivity).
    apply le_value_field. reflexivity.
  - rewrite read_le_skip by (rewrite le_bytes_length; lia).
    rewrite le_bytes_length.
    replace (2 * S k - 2)%nat with (2 * k)%nat by lia.
    apply IH. simpl in H. lia.
Qed.

Lemma nth_flat_map_blocks : forall {A B} k (f : A -> list B) l i c d d0,
  (forall x, List.length (f x) = k) -> (i < List.length l)%nat -> (c < k)%nat ->
  nth (i * k + c) (flat_map f l) d = nth c (f (nth i l d0)) d.
Proof.
  intros A B k f l. induction l as [|a l IH]; intros i c d d0 Hk Hi Hc;
    [simpl in Hi; lia|].
  rewrite flat_map_cons1. destruct i as [|i].
  - simpl Nat.mul. rewrite app_nth1 by (rewrite Hk; exact Hc). reflexivity.
  - rewrite app_nth2 by (rewrite Hk; lia). rewrite Hk.
    replace (S i * k + c - k)%nat with (i * k + c)%nat by lia.
    apply IH; [exact Hk|simpl in Hi; lia|exact Hc].
Qed.

Lemma pcmSamples_nth : forall b i c,
  (i < blength b)%nat -> (c < numberOfChannels b)%nat ->
  nth (i * numberOfChannels b + c) (pcmSamples b) 0%Z
  = Qtrunc (scaledSample (sample b c i)).
Proof.
  intros b i c Hi Hc. unfold pcmSamples.
  rewrite (nth_flat_map_blocks (numberOfChannels b) _ _ i c 0%Z 0%nat).
  - rewrite seq_nth by exact Hi. simpl Nat.add.
    rewrite (nth_indep _ _ ((fun ch => Qtrunc (scaledSample (sample b ch i))) 0%nat))
      by (rewrite length_map, length_seq; exact Hc).
    rewrite (map_nth (fun ch => Qtrunc (scaledSample (sample b ch i)))).
    rewrite seq_nth by exact Hc. reflexivity.
  - intros x. rewrite length_map, length_seq. reflexivity.
  - rewrite length_seq. exact Hi.
  - exact Hc.
Qed.

Lemma pcmSamples_length : forall b,
  List.length (pcmSamples b) = (blength b * numberOfChannels b)%nat.
Proof.
  intros b. unfold pcmSamples.
  rewrite (flat_map_length_const (numberOfChannels b))
    by (intros; rewrite length_map, length_seq; reflexivity).
  rewrite length_seq. lia.
Qed.

Lemma pcmBytes_length : forall b,
  List.length (pcmBytes b) = (blength b * numberOfChannels b * 2)%nat.
Proof.
  intros b. unfold pcmBytes.
  rewrite (flat_map_length_const 2) by (intros; apply le_bytes_length).
  rewrite pcmSamples_length. lia.
Qed.

Lemma read_le_sample : forall b i c,
  (i < blength b)%nat -> (c < numberOfChannels b)%nat ->
  read_le (wavHeader (sampleRate b) (blength b) (numberOfChannels b) ++ pcmBytes b)
    (44 + 2 * (i * numberOfChannels b + c)) 2
  = (Qtrunc (scaledSample (sample b c i)) mod 2 ^ 16)%Z.
Proof.
  intros b i c Hi Hc.
  rewrite read_le_skip by (rewrite wavHeader_length; lia).
  rewrite wavHeader_length.
  replace (44 + 2 * (i * numberOfChannels b + c) - 44)%nat
    with (2 * (i * numberOfChannels b + c))%nat by lia.
  unfold pcmBytes. rewrite read_le_pcm.
  - rewrite pcmSamples_nth by assumption. reflexivity.
  - rewrite pcmSamples_length. nia.
Qed.

(** C6 (amended): for every buffer with [C] channels, [S] samples per
    channel and sample rate [R], [bufferToWav] succeeds with exactly
    [44 + S*C*2] bytes: the tags RIFF, WAVE, fmt and data, and the
    little-endian fields RIFF size [(36 + S*C*2) mod 2^32], fmt length 16,
    PCM tag 1, channel count [C mod 2^16], sample rate [R mod 2^32], byte
    rate [(R*C*2) mod 2^32], block align [(C*2) mod 2^16], 16 bits per
    sample and data length [(S*C*2) mod 2^32]; sample [i] of channel [c]
    sits at byte [44 + 2*(i*C + c)] as the 16-bit two's complement of
    [trunc(x * 32768)] for negative [x] and [trunc(x * 32767)] otherwise,
    [x] being the sample clamped to [-1, 1]. *)
Theorem bufferToWav_wav_format : forall b, exists bytes,
  bufferToWav b = Some bytes
  /\ List.length bytes = (44 + blength b * numberOfChannels b * 2)%nat
  /\ firstn 4 bytes = ascii_codes "RIFF"
  /\ read_le bytes 4 4
     = ((36 + Z.of_nat (blength b * numberOfChannels b * 2)) mod 2 ^ 32)%Z
  /\ firstn 4 (skipn 8 bytes) = ascii_codes "WAVE"
  /\ firstn 4 (skipn 12 bytes) = ascii_codes "fmt "
  /\ read_le bytes 16 4 = 16%Z
  /\ read_le bytes 20 2 = 1%Z
  /\ read_le bytes 22 2 = (Z.of_nat (numberOfChannels b) mod 2 ^ 16)%Z
  /\ read_le bytes 24 4 = (Z.of_nat (sampleRate b) mod 2 ^ 32)%Z
  /\ read_le bytes 28 4
     = (Z.of_nat (sampleRate b * numberOfChannels b * 2) mod 2 ^ 32)%Z
  /\ read_le bytes 32 2 = (Z.of_nat (numberOfChannels b * 2) mod 2 ^ 16)%Z
  /\ read_le bytes 34 2 = 16%Z
  /\ firstn 4 (skipn 36 bytes) = ascii_codes "data"
  /\ read_le bytes 40 4
     = (Z.of_nat (blength b * numberOfChannels b * 2) mod 2 ^ 32)%Z
  /\ (forall i c, (i < blength b)%nat -> (c < numberOfChannels b)%nat ->
        read_le bytes (44 + 2 * (i * numberOfChannels b + c)) 2
        = (Qtrunc (scaledSample (sample b c i)) mod 2 ^ 16)%Z).
Proof.
  intros b.
  exists (wavHeader (sampleRate b) (blength b) (numberOfChannels b) ++ pcmBytes b).
  pose proof (wavHeader_fields (sampleRate b) (blength b) (numberOfChannels b)
                (pcmBytes b)) as F.
  split; [apply bufferToWav_layout|].
  split; [rewrite length_app, wavHeader_length, pcmBytes_length; reflexivity|].
  intuition. apply read_le_sample; assumption.
Qed.

Lemma Qtrunc_zero : forall x, x == 0 -> Qtrunc x = 0%Z.
Proof.
  intros [n d] H. unfold Qeq in H. simpl in H. unfold Qtrunc. simpl.
  rewrite Z.mul_1_r in H. subst n. reflexivity.
Qed.

Lemma scaledSample_zero : forall x, x == 0 -> scaledSample x == 0.
Proof.
  intros x Hx. unfold scaledSample. cbv zeta.
  assert (Hs : Qmax (-1) (Qmin 1 x) == 0).
  { rewrite Hx. reflexivity. }
  destruct (Qltb _ _); rewrite Hs; reflexivity.
Qed.

Lemma flat_map_enc_zero : forall l, (forall z, In z l -> z = 0%Z) ->
  flat_map (fun z => le_bytes 2 (z mod 2 ^ 16)%Z) l = repeat 0%Z (2 * List.length l).
Proof.
  induction l as [|z l IH]; intros Hz; [reflexivity|].
  rewrite flat_map_cons1, (Hz z (or_introl eq_refl)).
  rewrite IH by (intros y Hy; apply Hz; right; exact Hy).
  cbn [List.length].
  replace (2 * S (List.length l))%nat with (S (S (2 * List.length l))) by lia.
  reflexivity.
Qed.

Lemma pcmSamples_silent : forall b,
  Forall (Forall (fun x => x == 0)) (channels b) ->
  forall z, In z (pcmSamples b) -> z = 0%Z.
Proof.
  intros b H z Hzin. unfold pcmSamples in Hzin. apply in_flat_map in Hzin.
  destruct Hzin as [i [_ Hzin]]. apply in_map_iff in Hzin.
  destruct Hzin as [c [<- _]]. apply Qtrunc_zero, scaledSample_zero.
  apply sample_zero. exact H.
Qed.

Lemma pcmBytes_silent : forall b,
  Forall (Forall (fun x => x == 0)) (channels b) ->
  pcmBytes b = repeat 0%Z (blength b * numberOfChannels b * 2).
Proof.
  intros b H. unfold pcmBytes.
  rewrite (flat_map_enc_zero _ (pcmSamples_silent b H)), pcmSamples_length.
  f_equal. lia.
Qed.

(** C7 (amended): encoding a buffer whose samples are all zero gives the
    header followed by [S*C*2] zero bytes, so every 16-bit sample decodes
    to 0, and the header's data length field is [(S*C*2) mod 2^32]. *)
Theorem bufferToWav_silence : forall b,
  Forall (Forall (fun x => x == 0)) (channels b) ->
  exists bytes,
    bufferToWav b = Some bytes
    /\ bytes = wavHeader (sampleRate b) (blength b) (numberOfChannels b)
               ++ repeat 0%Z (blength b * numberOfChannels b * 2)
    /\ (forall k, (k < blength b * numberOfChannels b)%nat ->
          decodeInt16 bytes (44 + 2 * k) = 0%Z)
    /\ read_le bytes 40 4
       = (Z.of_nat (blength b * numberOfChannels b * 2) mod 2 ^ 32)%Z.
Proof.
  intros b H.
  exists (wavHeader (sampleRate b) (blength b) (numberOfChannels b) ++ pcmBytes b).
  split; [apply bufferToWav_layout|].
  split; [rewrite pcmBytes_silent by exact H; reflexivity|].
  split.
  - intros k Hk. unfold decodeInt16.
    rewrite read_le_skip by (rewrite wavHeader_length; lia).
    rewrite wavHeader_length. replace (44 + 2 * k - 44)%nat with (2 * k)%nat by lia.
    unfold pcmBytes. rewrite read_le_pcm by (rewrite pcmSamples_length; exact Hk).
    rewrite (pcmSamples_silent b H (nth k (pcmSamples b) 0%Z))
      by (apply nth_In; rewrite pcmSamples_length; exact Hk).
    reflexivity.
  - apply wavHeader_fields.
Qed.

Lemma wrapBuffer_payload :
  Z.of_nat (blength wrapBuffer * numberOfChannels wrapBuffer * 2) = (2 ^ 32)%Z.
Proof.
  change (blength wrapBuffer) with (Z.to_nat (2 ^ 31)).
  change (numberOfChannels wrapBuffer) with 1%nat.
  rewrite !Nat2Z.inj_mul, Z2Nat.id by (apply Z.pow_nonneg; lia).
  reflexivity.
Qed.

Lemma wrapBuffer_silent : Forall (Forall (fun x => x == 0)) (channels wrapBuffer).
Proof.
  change (channels wrapBuffer) with [repeat 0 (Z.to_nat (2 ^ 31))].
  constructor; [|constructor].
  apply Forall_forall. intros x Hx. apply repeat_spec in Hx. rewrite Hx.
  reflexivity.
Qed.

(** C6 (counterexample): a silent mono buffer of 2^31 samples has a PCM
    payload of [S*C*2 = 2^32] bytes, but its RIFF size field reads 36 and
    its data length field reads 0: [setUint32] wraps both modulo 2^32. *)
Lemma bufferToWav_size_wrap_cex :
  exists bytes, bufferToWav wrapBuffer = Some bytes
  /\ Z.of_nat (blength wrapBuffer * numberOfChannels wrapBuffer * 2) = (2 ^ 32)%Z
  /\ read_le bytes 4 4 = 36%Z
  /\ read_le bytes 40 4 = 0%Z.
Proof.
  eexists. split; [apply bufferToWav_layout|].
  pose proof (wavHeader_fields (sampleRate wrapBuffer) (blength wrapBuffer)
                (numberOfChannels wrapBuffer) (pcmBytes wrapBuffer)) as F.
  destruct F as (_ & F4 & _ & _ & _ & _ & _ & _ & _ & _ & _ & _ & F40).
  rewrite F4, F40, wrapBuffer_payload.
  split; [reflexivity|]. split; reflexivity.
Qed.

(** C7 (counterexample): for the all-zero buffer [wrapBuffer], with
    [S*C*2 = 2^32], the header's data length field reads 0. *)
Lemma bufferToWav_zero_datalen_cex :
  Forall (Forall (fun x => x == 0)) (channels wrapBuffer)
  /\ exists bytes, bufferToWav wrapBuffer = Some bytes
     /\ read_le bytes 40 4 = 0%Z
     /\ Z.of_nat (blength wrapBuffer * numberOfChannels wrapBuffer * 2) = (2 ^ 32)%Z.
Proof.
  split; [exact wrapBuffer_silent|].
  eexists. split; [apply bufferToWav_layout|].
  pose proof (wavHeader_fields (sampleRate wrapBuffer) (blength wrapBuffer)
                (numberOfChannels wrapBuffer) (pcmBytes wrapBuffer)) as F.
  destruct F as (_ & _ & _ & _ & _ & _ & _ & _ & _ & _ & _ & _ & F40).
  rewrite F40, wrapBuffer_payload. split; reflexivity.
Qed.

Lemma bufferToWav_silence_witness :
  Forall (Forall (fun x => x == 0)) (channels (mkBuffer 8 2 [[0%Q; 0%Q]; [0%Q; 0%Q]]))
  /\ exists bytes,
    bufferToWav (mkBuffer 8 2 [[0%Q; 0%Q]; [0%Q; 0%Q]]) = Some bytes
    /\ bytes = wavHeader 8 2 2 ++ repeat 0%Z 8
    /\ (forall k, (k < 4)%nat -> decodeInt16 bytes (44 + 2 * k) = 0%Z)
    /\ read_le bytes 40 4 = 8%Z.
Proof.
  assert (H : Forall (Forall (fun x => x == 0)) (channels (mkBuffer 8 2 [[0%Q; 0%Q]; [0%Q; 0%Q]])))
    by (repeat constructor).
  split; [exact H|].
  exact (bufferToWav_silence (mkBuffer 8 2 [[0%Q; 0%Q]; [0%Q; 0%Q]]) H).
Defined.

(* ================================================================= *)
(** ** Graph shapes *)

Lemma inputs_of_cons : forall (a b o i : nat) es n,
  inputs_of ((a, b, o, i) :: es) n =
  (if Nat.eqb b n then [a] else []) ++ inputs_of es n.
Proof. intros. unfold inputs_of. simpl. destruct (Nat.eqb b n); reflexivity. Qed.

Lemma inputs_of_fresh : forall es N n,
  Forall (fun e : Edge => let '(_, b, _, _) := e in (b < N)%nat) es ->
  (N <= n)%nat -> inputs_of es n = [].
Proof.
  induction es as [|[[[a b] o] i] es IH]; intros N n Hf Hn; [reflexivity|].
  inversion Hf; subst. rewrite inputs_of_cons.
  destruct (Nat.eqb_spec b n); [lia|]. simpl. eapply IH; eauto.
Qed.

Lemma find_snoc : forall {A} (f : A -> bool) l x,
  find f (l ++ [x]) =
  match find f l with Some y => Some y | None => if f x then Some x else None end.
Proof.
  intros A f l x. induction l as [|y l IH]; simpl.
  - destruct (f x); reflexivity.
  - destruct (f y); [reflexivity | exact IH].
Qed.

Lemma find_fresh : forall (l : list (nat * AudioNodeKind)) N n,
  Forall (fun p => (fst p < N)%nat) l -> (N <= n)%nat ->
  find (fun p => Nat.eqb (fst p) n) l = None.
Proof.
  induction l as [|[k K] l IH]; intros N n Hf Hn; [reflexivity|].
  inversion Hf; subst. simpl in *.
  destruct (Nat.eqb_spec k n); [lia|]. eapply IH; eauto.
Qed.

Ltac eqb_simpl :=
  repeat match goal with
  | |- context [Nat.eqb ?a ?b] =>
      first [ rewrite (Nat.eqb_refl a)
            | let H := fresh in
              assert (H : Nat.eqb a b = false) by (apply Nat.eqb_neq; lia);
              rewrite H; clear H ]
  end.

Lemma Forall_snoc : forall {A} (P : A -> Prop) l x,
  Forall P l -> P x -> Forall P (l ++ [x]).
Proof. intros. apply Forall_app. split; auto. Qed.

Lemma Forall_weaken_lt : forall (l : list (nat * AudioNodeKind)) N N',
  (N <= N')%nat -> Forall (fun p => (fst p < N)%nat) l ->
  Forall (fun p => (fst p < N')%nat) l.
Proof. intros l N N' H. apply Forall_impl. intros. lia. Qed.

Lemma Forall_weaken_edges : forall (l : list Edge) N N',
  (N <= N')%nat ->
  Forall (fun e : Edge => let '(_, b, _, _) := e in (b < N)%nat) l ->
  Forall (fun e : Edge => let '(_, b, _, _) := e in (b < N')%nat) l.
Proof. intros l N N' H. apply Forall_impl. intros [[[a b] o] i]. lia. Qed.

Lemma fresh_stage_ret : forall {A} (a : A), fresh_stage (ret a).
Proof. intros A a g Hg. simpl. split; [exact Hg|]. split; [lia|]. auto. Qed.

Lemma fresh_stage_bind : forall {A B} (m : M A) (k : A -> M B),
  fresh_stage m -> (forall a, fresh_stage (k a)) -> fresh_stage (bind m k).
Proof.
  intros A B m k Hm Hk g Hg. unfold bind.
  destruct (Hm g Hg) as [W1 [N1 P1]]. destruct (m g) as [a g1]. simpl in *.
  destruct (Hk a g1 W1) as [W2 [N2 P2]]. split; [exact W2|]. split; [lia|].
  intros n Hn. destruct (P1 n Hn). destruct (P2 n ltac:(lia)).
  split; congruence.
Qed.

Lemma fresh_stage_create_connect : forall {A} K i (k : nat -> M A),
  (forall x, fresh_stage (k x)) ->
  fresh_stage (x <- create K ;; connect i x ;;; k x).
Proof.
  intros A K i k Hk g [Hn He]. unfold bind, create, connect, connect_port. simpl.
  set (x := g_next g).
  set (g1 := mkGraph (S x) (g_nodes g ++ [(x, K)])
                     ((i, x, 0%nat, 0%nat) :: g_edges g)).
  assert (W1 : wf_graph g1).
  { split; simpl.
    - apply Forall_snoc; [eapply Forall_weaken_lt; [|exact Hn]; lia | simpl; lia].
    - constructor; [lia|]. eapply Forall_weaken_edges; [|exact He]; lia. }
  destruct (Hk x g1 W1) as [W2 [N2 P2]]. simpl in N2.
  split; [exact W2|]. split; [lia|]. intros n Hlt.
  destruct (P2 n ltac:(simpl; lia)) as [P P']. rewrite P, P'. split.
  - simpl. rewrite inputs_of_cons. eqb_simpl. reflexivity.
  - unfold node_at. simpl. rewrite find_snoc.
    destruct (find _ (g_nodes g)); [reflexivity|]. simpl. eqb_simpl. reflexivity.
Qed.

Lemma applyFilterChain_fresh : forall eqs i, fresh_stage (applyFilterChain i eqs).
Proof.
  induction eqs as [|spec rest IH]; intros i; simpl.
  - apply fresh_stage_ret.
  - destruct spec as [f order q|f gn q|f gn q|f gn q];
      apply fresh_stage_create_connect; intros x; auto.
    destruct order as [[|[|[|n]]]|]; auto.
    apply fresh_stage_create_connect; auto.
Qed.

Lemma applyBusComp_fresh : forall spec i, fresh_stage (applyBusComp i spec).
Proof.
  intros [s|] i; simpl; [|apply fresh_stage_ret].
  destruct (bc_enabled s); [|apply fresh_stage_ret].
  apply fresh_stage_bind.
  - destruct (truthy (sidechainHpfHz s)).
    + apply fresh_stage_create_connect. intros; apply fresh_stage_ret.
    + apply fresh_stage_ret.
  - intros a. apply fresh_stage_create_connect. intros; apply fresh_stage_ret.
Qed.

Lemma applyLimiterAndCeiling_fresh : forall out t i,
  fresh_stage (applyLimiterAndCeiling i out t).
Proof.
  intros out t i. unfold applyLimiterAndCeiling.
  apply fresh_stage_create_connect; intros x. cbv zeta.
  apply fresh_stage_create_connect; intros y.
  apply fresh_stage_create_connect; intros z. apply fresh_stage_ret.
Qed.

Ltac run_b :=
  cbv beta iota zeta delta [bind create connect connect_port ret bandComp
    applyMultiband createBandSplit applyStereoShaping applyLimiterAndCeiling
    xoversHz bands fst snd g_next g_nodes g_edges].

Ltac wf_new Hn He :=
  split; cbn [g_nodes g_edges g_next];
  [ repeat (apply Forall_snoc; [| cbn [fst]; lia]);
    eapply Forall_weaken_lt; [|exact Hn]; lia
  | repeat (constructor; [cbv beta iota; lia|]);
    eapply Forall_weaken_edges; [|exact He]; lia ].

Ltac old_queries :=
  let n := fresh "n" in let Hlt := fresh "Hlt" in
  intros n Hlt; split;
  [ cbn [g_edges]; rewrite ?inputs_of_cons; eqb_simpl; reflexivity
  | unfold node_at; cbn [g_nodes]; rewrite ?find_snoc;
    destruct (find _ _); [reflexivity|];
    cbv beta; cbn [fst]; eqb_simpl; reflexivity ].

Lemma applyMultiband_fresh : forall spec i, fresh_stage (applyMultiband i spec).
Proof.
  intros spec i [N ns es] [Hn He]. cbn [g_next g_nodes g_edges] in Hn, He.
  destruct spec as [[[[x1 x2] x3] x4] [[[[b1 b2] b3] b4] b5]].
  run_b. split; [wf_new Hn He|]. split; [cbn [g_next]; lia|]. old_queries.
Qed.

Lemma applyStereoShaping_fresh : forall st nch i,
  fresh_stage (applyStereoShaping i st nch).
Proof.
  intros st nch i g Hg. unfold applyStereoShaping.
  destruct (nch <? 2)%nat; [apply fresh_stage_ret; exact Hg|].
  destruct g as [N ns es]. destruct Hg as [Hn He]. cbn [g_next g_nodes g_edges] in Hn, He.
  destruct (truthy (monoBelowHz st)); destruct (widthHighOnly st) as [[f w]|];
    run_b;
    try destruct (Qltb _ _); run_b;
    (split; [wf_new Hn He|]; split; [cbn [g_next]; lia|]; old_queries).
Qed.

Ltac new_inputs He :=
  cbn [g_edges]; rewrite ?inputs_of_cons;
  rewrite (inputs_of_fresh _ _ _ He) by lia; eqb_simpl; cbn [app].

Ltac new_node Hn :=
  unfold node_at; cbn [g_nodes]; rewrite ?find_snoc;
  rewrite (find_fresh _ _ _ Hn) by lia; cbv beta; cbn [fst];
  eqb_simpl; reflexivity.

Ltac solve_chain Hn He :=
  repeat match goal with
  | |- _ /\ _ => split
  | |- exists m, inputs_of _ _ = [m] /\ _ =>
      eexists; split; [new_inputs He; reflexivity|]
  | |- node_at _ _ = Some _ => new_node Hn
  | |- ?a = ?a => reflexivity
  end.

Lemma chain_back_app : forall g src l1 l2 n m,
  chain_back g m l1 n -> chain_back g src l2 m -> chain_back g src (l1 ++ l2) n.
Proof.
  intros g src l1. induction l1 as [|k l1 IH]; intros l2 n m H1 H2; simpl in *.
  - subst. exact H2.
  - destruct H1 as [Hk [m' [Hi Hc]]]. split; [exact Hk|].
    exists m'. split; [exact Hi | eapply IH; eauto].
Qed.

Lemma series_cons : forall g src k ks n m,
  node_at g m = Some k -> inputs_of (g_edges g) m = [src] ->
  series g m ks n -> series g src (k :: ks) n.
Proof.
  intros g src k ks n m Hk Hi Hs. unfold series. simpl.
  eapply chain_back_app; [exact Hs|]. simpl. split; [exact Hk|].
  exists src. split; [exact Hi | reflexivity].
Qed.

Lemma series_create_connect : forall K (k : nat -> M nat) ks i g,
  wf_graph g ->
  (forall x g, wf_graph g -> series (snd (k x g)) x ks (fst (k x g))) ->
  (forall x, fresh_stage (k x)) ->
  series (snd ((x <- create K ;; connect i x ;;; k x) g)) i (K :: ks)
         (fst ((x <- create K ;; connect i x ;;; k x) g)).
Proof.
  intros K k ks i g Hg Hs Hf. destruct g as [N ns es]. destruct Hg as [Hn He].
  cbn [g_next g_nodes g_edges] in Hn, He.
  unfold bind, create, connect, connect_port. cbn [fst snd g_next g_nodes g_edges].
  set (g1 := mkGraph (S N) (ns ++ [(N, K)]) ((i, N, 0%nat, 0%nat) :: es)).
  assert (W1 : wf_graph g1).
  { unfold g1; split; cbn [g_next g_nodes g_edges].
    - apply Forall_snoc; [eapply Forall_weaken_lt; [|exact Hn]; lia | simpl; lia].
    - constructor; [simpl; lia|]. eapply Forall_weaken_edges; [|exact He]; lia. }
  destruct (Hf N g1 W1) as [_ [_ P]].
  destruct (P N ltac:(unfold g1; simpl; lia)) as [P1 P2].
  eapply series_cons; [| | apply Hs; exact W1].
  - rewrite P2. subst g1. new_node Hn.
  - rewrite P1. subst g1. new_inputs He. reflexivity.
Qed.

Lemma applyFilterChain_series_gen : forall eqs i g, wf_graph g ->
  series (snd (applyFilterChain i eqs g)) i (eqKinds eqs)
    (fst (applyFilterChain i eqs g)).
Proof.
  induction eqs as [|spec rest IH]; intros i g Hg; [reflexivity|].
  destruct spec as [f order q|f gn q|f gn q|f gn q]; simpl eqKinds;
    cbn [applyFilterChain];
    try (apply series_create_connect;
         [exact Hg | intros; apply IH; auto | intros; apply applyFilterChain_fresh]).
  destruct order as [[|[|[|n]]]|];
    try (apply series_create_connect;
         [exact Hg | intros; apply IH; auto | intros; apply applyFilterChain_fresh]).
  apply series_create_connect; [exact Hg| |].
  - intros x g' Hg'. apply series_create_connect;
      [exact Hg' | intros; apply IH; auto | intros; apply applyFilterChain_fresh].
  - intros x. apply fresh_stage_create_connect. intros; apply applyFilterChain_fresh.
Qed.

(** X1: [applyFilterChain] wires the EQ entries in series: from the
    input node, its output is reached through one biquad per entry, in
    list order, each node having that single predecessor as its only
    input; an order-2 [hpf] gives two identical highpass biquads, and a
    missing [q] defaults to 0.707 ([hpf]), 1.0 ([lowshelf]) or 0.7
    ([highshelf]). *)
Theorem applyFilterChain_series : forall eqs i g, wf_graph g ->
  let '(out, g') := applyFilterChain i eqs g in series g' i (eqKinds eqs) out.
Proof.
  intros eqs i g Hg. generalize (applyFilterChain_series_gen eqs i g Hg).
  destruct (applyFilterChain i eqs g). exact (fun H => H).
Qed.

(** X2: [applyMultiband] returns a unity gain whose five inputs are
    the five bands, each a series chain from the stage input: lowpass at
    x1 for band 1, highpass then lowpass between consecutive crossovers
    for bands 2-4, highpass at x4 for band 5, each followed by its
    compressor with ratio, attack and release clamped. *)
Theorem applyMultiband_bands : forall g i spec, wf_graph g ->
  let '(sum, g') := applyMultiband i spec g in
  let '(x1, x2, x3, x4) := xoversHz spec in
  let '(b1, b2, b3, b4, b5) := bands spec in
  node_at g' sum = Some (GainNode (xq 1))
  /\ exists c1 c2 c3 c4 c5,
       inputs_of (g_edges g') sum = [c5; c4; c3; c2; c1]
       /\ series g' i [lowpassAt x1; bandCompressor b1] c1
       /\ series g' i [highpassAt x1; lowpassAt x2; bandCompressor b2] c2
       /\ series g' i [highpassAt x2; lowpassAt x3; bandCompressor b3] c3
       /\ series g' i [highpassAt x3; lowpassAt x4; bandCompressor b4] c4
       /\ series g' i [highpassAt x4; bandCompressor b5] c5.
Proof.
  intros [N ns es] i spec [Hn He]. cbn [g_next g_nodes g_edges] in Hn, He.
  destruct spec as [[[[x1 x2] x3] x4] [[[[b1 b2] b3] b4] b5]].
  run_b. split; [new_node Hn|].
  do 5 eexists. split; [new_inputs He; reflexivity|].
  unfold series; cbn [rev app chain_back]. solve_chain Hn He.
Qed.

Lemma sourceGraph_wf : wf_graph sourceGraph.
Proof.
  unfold wf_graph, sourceGraph; cbn [g_next g_nodes g_edges]; split;
    repeat (apply Forall_cons; [simpl; unfold destination; lia|]); apply Forall_nil.
Qed.

Lemma applyFilterChain_series_witness :
  wf_graph sourceGraph /\
  let '(out, g') := applyFilterChain 1 [EQ_hpf 30 (Some 2%nat) (Some 0.707);
                                        EQ_bell 1500 1 1.1] sourceGraph in
  series g' 1 (eqKinds [EQ_hpf 30 (Some 2%nat) (Some 0.707); EQ_bell 1500 1 1.1]) out.
Proof.
  split; [exact sourceGraph_wf|].
  exact (applyFilterChain_series [EQ_hpf 30 (Some 2%nat) (Some 0.707); EQ_bell 1500 1 1.1]
           1 sourceGraph sourceGraph_wf).
Defined.

Lemma applyMultiband_bands_witness :
  wf_graph sourceGraph /\
  let spec := mkMultiband MB_XOVERS (std_bands 2 (-24) 1.8 (-23) 1.5 (-22) 1.3 (-21) 1.2 (-21)) in
  let '(sum, g') := applyMultiband 1 spec sourceGraph in
  let '(x1, x2, x3, x4) := xoversHz spec in
  let '(b1, b2, b3, b4, b5) := bands spec in
  node_at g' sum = Some (GainNode (xq 1))
  /\ exists c1 c2 c3 c4 c5,
       inputs_of (g_edges g') sum = [c5; c4; c3; c2; c1]
       /\ series g' 1 [lowpassAt x1; bandCompressor b1] c1
       /\ series g' 1 [highpassAt x1; lowpassAt x2; bandCompressor b2] c2
       /\ series g' 1 [highpassAt x2; lowpassAt x3; bandCompressor b3] c3
       /\ series g' 1 [highpassAt x3; lowpassAt x4; bandCompressor b4] c4
       /\ series g' 1 [highpassAt x4; bandCompressor b5] c5.
Proof.
  split; [exact sourceGraph_wf|].
  exact (applyMultiband_bands sourceGraph 1
           (mkMultiband MB_XOVERS (std_bands 2 (-24) 1.8 (-23) 1.5 (-22) 1.3 (-21) 1.2 (-21)))
           sourceGraph_wf).
Defined.


Lemma clamp_range : forall v mn mx, mn <= mx -> mn <= clamp v mn mx <= mx.
Proof.
  intros v mn mx H. unfold clamp. split.
  - apply Q.le_max_l.
  - apply Q.max_lub; [exact H | apply Q.le_min_l].
Qed.

Ltac new_in Hp :=
  rewrite <- ?app_assoc in Hp; cbn [app] in Hp;
  apply in_app_or in Hp; destruct Hp as [Hp|Hp]; [left; exact Hp|right];
  repeat (destruct Hp as [Hp|Hp]; [subst; cbn [snd comp_in_range compressor]|]);
  try contradiction.

Ltac comp_ok :=
  first [ exact I
        | do 3 eexists; repeat split; try reflexivity;
          match goal with
          | |- context [clamp ?v ?a ?b] =>
              let H := fresh in
              pose proof (clamp_range v a b ltac:(Lqa.lra)) as H; Lqa.lra
          end ].

(** X3: every node that [applyMultiband] or [applyBusComp] adds to
    the graph is either not a compressor or a compressor whose ratio
    lies in [1, 20], attack in [0.001, 0.25] s and release in
    [0.03, 0.5] s, whatever the spec. *)
Theorem stage_compressors_in_range : forall i g mspec bspec,
  (forall p, In p (g_nodes (snd (applyMultiband i mspec g))) ->
             In p (g_nodes g) \/ comp_in_range (snd p))
  /\ (forall p, In p (g_nodes (snd (applyBusComp i bspec g))) ->
                In p (g_nodes g) \/ comp_in_range (snd p)).
Proof.
  intros i [N ns es] mspec bspec. split.
  - destruct mspec as [[[[x1 x2] x3] x4] [[[[b1 b2] b3] b4] b5]].
    intros p Hp. cbv beta iota zeta delta [bind create connect connect_port ret bandComp applyMultiband createBandSplit xoversHz bands fst snd g_next g_nodes g_edges] in Hp. new_in Hp; comp_ok.
  - intros p Hp. destruct bspec as [s|]; [|left; exact Hp].
    cbn [applyBusComp] in Hp. destruct (bc_enabled s); [|left; exact Hp].
    destruct (truthy (sidechainHpfHz s));
      cbv beta iota zeta delta [bind create connect connect_port ret fst snd g_next g_nodes g_edges] in Hp;
      new_in Hp; comp_ok.
Qed.

Lemma dest_free_fresh : forall {A} (m : M A) g,
  fresh_stage m -> dest_free g -> dest_free (snd (m g)).
Proof.
  intros A m g Hm [W [Hp [Hi Hd]]]. destruct (Hm g W) as [W' [N' P]].
  destruct (P destination Hp) as [P1 P2].
  split; [exact W'|]. split; [lia|]. split; congruence.
Qed.

Lemma dest_free_create_connect : forall N ns es K i,
  dest_free (mkGraph N ns es) ->
  dest_free (mkGraph (S N) (ns ++ [(N, K)]) ((i, N, 0%nat, 0%nat) :: es)).
Proof.
  intros N ns es K i [[Hn He] [Hp [Hi Hd]]].
  unfold dest_free, wf_graph in *. cbn [g_next g_nodes g_edges] in *.
  split; [|split; [lia|split]].
  - split.
    + apply Forall_snoc; [eapply Forall_weaken_lt; [|exact Hn]; lia | simpl; lia].
    + constructor; [simpl; lia|]. eapply Forall_weaken_edges; [|exact He]; lia.
  - rewrite inputs_of_cons. unfold destination in *. eqb_simpl. exact Hi.
  - unfold node_at in *. cbn [g_nodes] in *. rewrite find_snoc.
    destruct (find _ ns); [exact Hd|]. discriminate.
Qed.

Ltac open_render :=
  let D := fresh "D" in let B := fresh "B" in
  match goal with
  | |- context [applyFilterChain ?i ?l ?g] =>
      assert (D : dest_free (snd (applyFilterChain i l g)))
        by (apply dest_free_fresh; [apply applyFilterChain_fresh
             | first [assumption | apply dest_free_create_connect; assumption]]);
      generalize (applyFilterChain_builds l i g); revert D;
      destruct (applyFilterChain i l g) as [?o [?N ?ns ?es]]
  | |- context [applyBusComp ?i ?l ?g] =>
      assert (D : dest_free (snd (applyBusComp i l g)))
        by (apply dest_free_fresh; [apply applyBusComp_fresh
             | first [assumption | apply dest_free_create_connect; assumption]]);
      generalize (applyBusComp_builds l i g); revert D;
      destruct (applyBusComp i l g) as [?o [?N ?ns ?es]]
  | |- context [applyMultiband ?i ?l ?g] =>
      assert (D : dest_free (snd (applyMultiband i l g)))
        by (apply dest_free_fresh; [apply applyMultiband_fresh
             | first [assumption | apply dest_free_create_connect; assumption]]);
      generalize (applyMultiband_builds l i g); revert D;
      destruct (applyMultiband i l g) as [?o [?N ?ns ?es]]
  | |- context [applyStereoShaping ?i ?l ?n ?g] =>
      assert (D : dest_free (snd (applyStereoShaping i l n g)))
        by (apply dest_free_fresh; [apply applyStereoShaping_fresh
             | first [assumption | apply dest_free_create_connect; assumption]]);
      generalize (applyStereoShaping_builds l n i g); revert D;
      destruct (applyStereoShaping i l n g) as [?o [?N ?ns ?es]]
  end;
  cbn [fst snd g_next g_nodes g_edges]; intros D B; cbv beta iota zeta.

(** X4: in the final render, the destination is fed by the chain
    trim gain (dbToLin trimDb), limiter, ceiling gain, each node with
    a single input, and that chain is reached from the buffer source. *)
Theorem buildRenderGraph_final_limiter : forall dsp useAutoTune trimDb nch,
  let g := snd (runGraph (buildRenderGraph dsp useAutoTune final trimDb nch)) in
  exists s, reaches (g_edges g) 1 s
    /\ series g s [GainNode (dbToLin trimDb); limiterNode (output dsp);
                   GainNode (dbToLin (xq (ceilingDbFS (output dsp))));
                   DestinationNode] destination.
Proof.
  intros dsp useAutoTune trimDb nch. cbv zeta.
  unfold buildRenderGraph, runGraph, emptyGraph.
  cbv beta iota zeta delta [bind create connect connect_port ret fst snd g_next
    g_nodes g_edges].
  assert (D0 : dest_free (mkGraph 3 [(destination, DestinationNode); (1%nat, BufferSourceNode);
                 (2%nat, biquad highpass 30 0.707 0)] [(1%nat, 2%nat, 0%nat, 0%nat)])).
  { unfold dest_free, wf_graph; cbn [g_next g_nodes g_edges].
    split; [split|split; [lia|split; reflexivity]];
      repeat (apply Forall_cons; [simpl; unfold destination; lia|]); apply Forall_nil. }
  open_render.
  destruct (is_bigcappo (special dsp) || useAutoTune); cbv beta iota zeta;
    do 3 open_render;
    exists o2; cbv beta iota zeta delta [applyLimiterAndCeiling bind create connect
      connect_port ret fst snd g_next g_nodes g_edges];
    destruct D3 as [[Hn He] [Hp [Hi Hd]]]; cbn [g_next g_nodes g_edges] in Hn, He, Hp, Hi, Hd;
    unfold destination in *;
    (split;
     [ repeat match goal with H : _ /\ _ |- _ => destruct H end;
       unfold incl in *; close_path
     | unfold series; cbn [rev app chain_back]; split;
       [ unfold node_at in Hd |- *; cbn [g_nodes] in Hd |- *; rewrite !find_snoc;
         destruct (find _ ns2); [exact Hd | discriminate]
       | eexists; split;
         [ cbn [g_edges]; rewrite ?inputs_of_cons; eqb_simpl; rewrite Hi; cbn [app]; reflexivity
         | solve_chain Hn He ] ] ]).
Qed.

Lemma fresh_but_dest_of_fresh : forall {A} (m : M A), fresh_stage m -> fresh_but_dest m.
Proof.
  intros A m H g Hg _. destruct (H g Hg) as [W [N P]].
  split; [exact W|]. split; [exact N|]. intros n Hn. destruct (P n Hn). auto.
Qed.

Lemma fresh_but_dest_bind : forall {A B} (m : M A) (k : A -> M B),
  fresh_but_dest m -> (forall a, fresh_but_dest (k a)) -> fresh_but_dest (bind m k).
Proof.
  intros A B m k Hm Hk g Hg Hp. unfold bind.
  destruct (Hm g Hg Hp) as [W1 [N1 P1]]. destruct (m g) as [a g1]. simpl in *.
  destruct (Hk a g1 W1 ltac:(lia)) as [W2 [N2 P2]]. split; [exact W2|]. split; [lia|].
  intros n Hn. destruct (P1 n Hn) as [A1 B1]. destruct (P2 n ltac:(lia)) as [A2 B2].
  split; [congruence|]. intros Hd. rewrite B2, B1 by exact Hd. reflexivity.
Qed.

Lemma fresh_but_dest_connect_dest : forall x, fresh_but_dest (connect x destination).
Proof.
  intros x [N ns es] [Hn He] Hp. cbn [g_next g_nodes g_edges] in *.
  unfold connect, connect_port. cbn [snd g_next g_nodes g_edges].
  split; [split; [exact Hn | constructor; [unfold destination; exact Hp | exact He]]|].
  split; [lia|]. intros n Hlt. split; [reflexivity|]. intros Hd.
  cbn [g_edges]. rewrite inputs_of_cons. unfold destination in *.
  destruct (Nat.eqb_spec 0 n); [lia | reflexivity].
Qed.

Lemma node_at_lt : forall g n k, wf_graph g -> node_at g n = Some k -> (n < g_next g)%nat.
Proof.
  intros g n k [Hn _] H. unfold node_at in H.
  destruct (find (fun p => Nat.eqb (fst p) n) (g_nodes g)) as [p|] eqn:E; [|discriminate].
  apply find_some in E. destruct E as [Ein Eeq]. apply Nat.eqb_eq in Eeq.
  rewrite Forall_forall in Hn. specialize (Hn p Ein). lia.
Qed.

Lemma chain_back_keep : forall ks g g' src n,
  wf_graph g -> node_at g destination = Some DestinationNode ->
  ~ In DestinationNode ks ->
  (forall m, (m < g_next g)%nat -> node_at g' m = node_at g m
     /\ (m <> destination -> inputs_of (g_edges g') m = inputs_of (g_edges g) m)) ->
  chain_back g src ks n -> chain_back g' src ks n.
Proof.
  induction ks as [|k ks IH]; intros g g' src n Hw Hd Hk P H; [exact H|].
  destruct H as [Hn [m [Hi Hc]]].
  assert (Hlt : (n < g_next g)%nat) by (eapply node_at_lt; eauto).
  destruct (P n Hlt) as [P1 P2].
  assert (Hnd : n <> destination).
  { intros ->. rewrite Hd in Hn. injection Hn as <-. apply Hk. left. reflexivity. }
  split; [congruence|]. exists m. split; [rewrite P2 by exact Hnd; exact Hi|].
  eapply IH; eauto. intros Hin. apply Hk. right. exact Hin.
Qed.

Lemma eqKinds_no_dest : forall eqs, ~ In DestinationNode (eqKinds eqs).
Proof.
  induction eqs as [|spec rest IH]; [simpl; tauto|].
  destruct spec as [f order q|f gn q|f gn q|f gn q]; simpl eqKinds;
    [destruct order as [[|[|[|n]]]|]|..]; simpl;
    intros H; repeat destruct H as [H|H]; try discriminate; exact (IH H).
Qed.

Lemma bind_snd : forall {A B} (m : M A) (k : A -> M B) g,
  snd (bind m k g) = snd (k (fst (m g)) (snd (m g))).
Proof. intros. unfold bind. destruct (m g). reflexivity. Qed.

Lemma render_back_fresh : forall dsp useAutoTune mode trimDb nch x,
  fresh_but_dest (
    tuned <- (if is_bigcappo (special dsp) || useAutoTune then
                w <- create warmthTrim ;; connect x w ;;; ret w
              else ret x) ;;
    busOut <- applyBusComp tuned (busComp dsp) ;;
    mbOut <- applyMultiband busOut (multiband dsp) ;;
    stereoOut <- applyStereoShaping mbOut (stereo dsp) nch ;;
    match mode with
    | preOutput => connect stereoOut destination
    | final =>
        finalOut <- applyLimiterAndCeiling stereoOut (output dsp) trimDb ;;
        connect finalOut destination
    end).
Proof.
  intros. apply fresh_but_dest_bind.
  { apply fresh_but_dest_of_fresh. destruct (_ || _);
      [apply fresh_stage_create_connect; intros; apply fresh_stage_ret | apply fresh_stage_ret]. }
  intros t. apply fresh_but_dest_bind; [apply fresh_but_dest_of_fresh, applyBusComp_fresh|].
  intros b. apply fresh_but_dest_bind; [apply fresh_but_dest_of_fresh, applyMultiband_fresh|].
  intros mb. apply fresh_but_dest_bind; [apply fresh_but_dest_of_fresh, applyStereoShaping_fresh|].
  intros so. destruct mode; [apply fresh_but_dest_connect_dest|].
  apply fresh_but_dest_bind; [apply fresh_but_dest_of_fresh, applyLimiterAndCeiling_fresh|].
  intros; apply fresh_but_dest_connect_dest.
Qed.

Lemma front_split : forall eqs (rest : nat -> M unit),
  snd ((src <- create BufferSourceNode ;;
        safetyHPF <- create (biquad highpass 30 0.707 0) ;;
        connect src safetyHPF ;;;
        eqOut <- applyFilterChain safetyHPF eqs ;;
        rest eqOut) emptyGraph)
  = snd (rest (fst (applyFilterChain 2 eqs frontGraph))
              (snd (applyFilterChain 2 eqs frontGraph))).
Proof.
  intros eqs rest. unfold bind, create, connect, connect_port, emptyGraph.
  cbn [fst snd g_next g_nodes g_edges app]. fold (highpassAt 30).
  change (mkGraph 3 _ _) with frontGraph.
  destruct (applyFilterChain 2 eqs frontGraph). reflexivity.
Qed.

Lemma frontGraph_ok : wf_graph frontGraph /\ (0 < g_next frontGraph)%nat
  /\ node_at frontGraph destination = Some DestinationNode
  /\ node_at frontGraph 1 = Some BufferSourceNode.
Proof.
  unfold frontGraph, wf_graph; cbn [g_next g_nodes g_edges].
  split; [split|split; [lia|split; reflexivity]];
    repeat (apply Forall_cons; [simpl; unfold destination; lia|]); apply Forall_nil.
Qed.

(** X5: in both render modes, node 1 is the buffer source and the
    signal goes from it through the 30 Hz safety highpass and then
    the preset's EQ chain in series, each node with a single input;
    the later stages do not rewire these nodes. *)
Theorem buildRenderGraph_front_end : forall dsp useAutoTune mode trimDb nch,
  let g := snd (runGraph (buildRenderGraph dsp useAutoTune mode trimDb nch)) in
  node_at g 1 = Some BufferSourceNode
  /\ exists e, series g 1 (highpassAt 30 :: eqKinds (eq dsp)) e.
Proof.
  intros dsp useAutoTune mode trimDb nch. cbv zeta.
  unfold buildRenderGraph, runGraph. rewrite front_split.
  destruct frontGraph_ok as [W0 [P0 [D0 S0]]].
  pose proof (applyFilterChain_series_gen (eq dsp) 2 frontGraph W0) as Hs.
  destruct (applyFilterChain_fresh (eq dsp) 2 frontGraph W0) as [W1 [N1 F1]].
  set (g1 := snd (applyFilterChain 2 (eq dsp) frontGraph)) in *.
  set (e := fst (applyFilterChain 2 (eq dsp) frontGraph)) in *.
  assert (Hs1 : series g1 1 (highpassAt 30 :: eqKinds (eq dsp)) e).
  { eapply series_cons; [| | exact Hs].
    - destruct (F1 2%nat ltac:(cbn; lia)) as [_ ->]. reflexivity.
    - destruct (F1 2%nat ltac:(cbn; lia)) as [-> _]. reflexivity. }
  assert (D1 : node_at g1 destination = Some DestinationNode).
  { destruct (F1 destination ltac:(unfold destination; cbn; lia)) as [_ ->]. exact D0. }
  assert (S1 : node_at g1 1 = Some BufferSourceNode).
  { destruct (F1 1%nat ltac:(cbn; lia)) as [_ ->]. exact S0. }
  destruct (render_back_fresh dsp useAutoTune mode trimDb nch e g1 W1 ltac:(cbn in N1; lia))
    as [W2 [N2 P2]].
  split.
  - destruct (P2 1%nat ltac:(eapply node_at_lt; eauto)) as [-> _]. exact S1.
  - exists e. unfold series in *. eapply chain_back_keep; [exact W1 | exact D1 | | | exact Hs1].
    + rewrite <- in_rev. intros [H|H]; [discriminate | exact (eqKinds_no_dest _ H)].
    + exact P2.
Qed.

Lemma baselineDSP_thresholds_eq : forall key s,
  band_thresholds (multiband (baselineDSP key s))
  = let comp := clamp (compression s) 1.5 7 in
    let tb := -22 - (comp - 2) * 0.8 in
    [tb - 2; tb - 1; tb + 0; tb + 1; tb + 1].
Proof.
  intros key s. unfold baselineDSP. cbv zeta.
  destruct (slider_ratios s) as [[[[r1 r2] r3] r4] r5].
  reflexivity.
Qed.

(** X6: for every slider setting, the slider-derived multiband
    thresholds rise from the low band to the high-mid band (the two top
    bands share one), lie in [-28, -20.6] dB, and moving the
    compression slider up never raises any of them. *)
Theorem baselineDSP_band_thresholds : forall key s,
  match band_thresholds (multiband (baselineDSP key s)) with
  | [t1; t2; t3; t4; t5] =>
      -28 <= t1 /\ t1 < t2 /\ t2 < t3 /\ t3 < t4 /\ t4 == t5 /\ t5 <= -20.6
  | _ => False
  end
  /\ (forall key' s', compression s <= compression s' ->
        Forall2 Qle (band_thresholds (multiband (baselineDSP key' s')))
                    (band_thresholds (multiband (baselineDSP key s)))).
Proof.
  intros key s. split.
  - rewrite baselineDSP_thresholds_eq. cbv zeta.
    pose proof (clamp_range (compression s) 1.5 7 ltac:(Lqa.lra)).
    repeat split; Lqa.lra.
  - intros key' s' H. rewrite !baselineDSP_thresholds_eq. cbv zeta.
    pose proof (clamp_mono _ _ 1.5 1.5 7 7 H (Qle_refl _) (Qle_refl _)).
    repeat constructor; Lqa.lra.
Qed.

(* ================================================================= *)
(** ** Sample encoding *)

Lemma Qtrunc_nonneg : forall q, 0 <= q ->
  (0 <= Qtrunc q)%Z /\ inject_Z (Qtrunc q) <= q < inject_Z (Qtrunc q) + 1.
Proof.
  intros [n d] H. unfold Qle in H. simpl in H. rewrite Z.mul_1_r in H.
  unfold Qtrunc. simpl. rewrite Z.quot_div_nonneg by lia.
  pose proof (Z.div_mod n (Zpos d) ltac:(lia)) as Hdm.
  pose proof (Z.mod_pos_bound n (Zpos d) ltac:(lia)) as Hb.
  set (t := (n / Zpos d)%Z) in *. set (r := (n mod Zpos d)%Z) in *.
  split; [|split].
  - apply Z.div_pos; lia.
  - unfold Qle. simpl. nia.
  - unfold Qlt, Qplus. simpl. nia.
Qed.

Lemma Qtrunc_nonpos : forall q, q <= 0 ->
  (Qtrunc q <= 0)%Z /\ inject_Z (Qtrunc q) - 1 < q <= inject_Z (Qtrunc q).
Proof.
  intros [n d] H. unfold Qle in H. simpl in H. rewrite Z.mul_1_r in H.
  unfold Qtrunc. simpl.
  assert (Hq : (n ÷ Zpos d = - (- n / Zpos d))%Z).
  { rewrite <- Z.quot_div_nonneg by lia. rewrite Z.quot_opp_l by lia. lia. }
  rewrite Hq.
  pose proof (Z.div_mod (- n) (Zpos d) ltac:(lia)) as Hdm.
  pose proof (Z.mod_pos_bound (- n) (Zpos d) ltac:(lia)) as Hb.
  set (t := (- n / Zpos d)%Z) in *. set (r := (- n mod Zpos d)%Z) in *.
  split; [|split].
  - assert (0 <= t)%Z by (apply Z.div_pos; lia). lia.
  - unfold Qlt, Qminus, Qplus. simpl. nia.
  - unfold Qle. simpl. nia.
Qed.

Lemma Qtrunc_mono : forall p q, p <= q -> (Qtrunc p <= Qtrunc q)%Z.
Proof.
  intros p q H.
  destruct (Qlt_le_dec p 0) as [Hp|Hp]; destruct (Qlt_le_dec q 0) as [Hq|Hq].
  - destruct (Qtrunc_nonpos p (Qlt_le_weak _ _ Hp)) as [_ [A _]].
    destruct (Qtrunc_nonpos q (Qlt_le_weak _ _ Hq)) as [_ [_ B]].
    assert (H1 : inject_Z (Qtrunc p) < inject_Z (Qtrunc q + 1))
      by (rewrite inject_Z_plus; change (inject_Z 1) with 1; Lqa.lra).
    rewrite <- Zlt_Qlt in H1. lia.
  - destruct (Qtrunc_nonpos p (Qlt_le_weak _ _ Hp)) as [A _].
    destruct (Qtrunc_nonneg q Hq) as [B _]. lia.
  - Lqa.lra.
  - destruct (Qtrunc_nonneg p Hp) as [_ [A _]].
    destruct (Qtrunc_nonneg q Hq) as [_ [_ B]].
    assert (H1 : inject_Z (Qtrunc p) < inject_Z (Qtrunc q + 1))
      by (rewrite inject_Z_plus; change (inject_Z 1) with 1; Lqa.lra).
    rewrite <- Zlt_Qlt in H1. lia.
Qed.

Lemma Qtrunc_wd : forall p q, p == q -> Qtrunc p = Qtrunc q.
Proof.
  intros p q H. apply Z.le_antisymm; apply Qtrunc_mono; rewrite H; apply Qle_refl.
Qed.

Lemma Qtrunc_inject : forall z, Qtrunc (inject_Z z) = z.
Proof. intros z. unfold Qtrunc. simpl. apply Z.quot_1_r. Qed.

Lemma scaledSample_range : forall x, -32768 <= scaledSample x <= 32767.
Proof.
  intros x. unfold scaledSample. cbv zeta.
  set (s := Qmax (-1) (Qmin 1 x)).
  assert (Hs : -1 <= s <= 1).
  { subst s. split; [apply Q.le_max_l|].
    apply Q.max_lub; [Lqa.lra | apply Q.le_min_l]. }
  unfold Qltb. destruct (Qle_bool 0 s) eqn:E; simpl.
  - apply Qle_bool_iff in E. split; Lqa.nra.
  - assert (s < 0).
    { apply Qnot_le_lt. intros C. apply Qle_bool_iff in C. congruence. }
    split; Lqa.nra.
Qed.

Lemma scaledSample_mono : forall x y, x <= y -> scaledSample x <= scaledSample y.
Proof.
  intros x y H. unfold scaledSample. cbv zeta.
  assert (Hm : Qmax (-1) (Qmin 1 x) <= Qmax (-1) (Qmin 1 y)).
  { apply Q.max_le_compat_l. apply Q.min_le_compat_l. exact H. }
  assert (Bx : -1 <= Qmax (-1) (Qmin 1 x) <= 1).
  { split; [apply Q.le_max_l|]. apply Q.max_lub; [Lqa.lra | apply Q.le_min_l]. }
  assert (By : -1 <= Qmax (-1) (Qmin 1 y) <= 1).
  { split; [apply Q.le_max_l|]. apply Q.max_lub; [Lqa.lra | apply Q.le_min_l]. }
  revert Hm Bx By.
  generalize (Qmax (-1) (Qmin 1 x)) (Qmax (-1) (Qmin 1 y)). intros sx sy Hm Bx By.
  unfold Qltb.
  destruct (Qle_bool 0 sx) eqn:Ex; destruct (Qle_bool 0 sy) eqn:Ey; simpl;
    try apply Qle_bool_iff in Ex; try apply Qle_bool_iff in Ey.
  - Lqa.nra.
  - assert (sy < 0).
    { apply Qnot_le_lt. intros C. apply Qle_bool_iff in C. congruence. }
    Lqa.lra.
  - assert (sx < 0).
    { apply Qnot_le_lt. intros C. apply Qle_bool_iff in C. congruence. }
    Lqa.nra.
  - Lqa.nra.
Qed.

Lemma pcm_value_range : forall x,
  (-32768 <= Qtrunc (scaledSample x) <= 32767)%Z.
Proof.
  intros x. destruct (scaledSample_range x) as [A B].
  destruct (Qlt_le_dec (scaledSample x) 0) as [H|H].
  - destruct (Qtrunc_nonpos _ (Qlt_le_weak _ _ H)) as [C [_ D]].
    split; [|lia].
    assert (inject_Z (-32768) <= inject_Z (Qtrunc (scaledSample x))) by
      (eapply Qle_trans; [exact A | exact D]).
    rewrite <- Zle_Qle in H0. exact H0.
  - destruct (Qtrunc_nonneg _ H) as [C [D _]].
    split; [lia|].
    assert (inject_Z (Qtrunc (scaledSample x)) <= inject_Z 32767) by
      (eapply Qle_trans; [exact D | exact B]).
    rewrite <- Zle_Qle in H0. exact H0.
Qed.

Lemma int16_unwrap : forall z, (-32768 <= z <= 32767)%Z ->
  (let u := (z mod 2 ^ 16)%Z in if (u <? 2 ^ 15)%Z then u else (u - 2 ^ 16)%Z) = z.
Proof.
  intros z Hz. cbv zeta.
  destruct (Z_le_gt_dec 0 z).
  - rewrite Z.mod_small by lia. destruct (Z.ltb_spec z (2 ^ 15)); lia.
  - replace (z mod 2 ^ 16)%Z with (z + 2 ^ 16)%Z.
    + destruct (Z.ltb_spec (z + 2 ^ 16) (2 ^ 15)); lia.
    + apply Z.mod_unique with (-1)%Z; lia.
Qed.

Lemma toInt16Value_scaled : forall x,
  toInt16Value (scaledSample x) = Qtrunc (scaledSample x).
Proof. intros x. unfold toInt16Value. apply int16_unwrap, pcm_value_range. Qed.

Lemma list_as_map_nth : forall {A} (l : list A) d,
  l = map (fun i => nth i l d) (seq 0 (List.length l)).
Proof.
  intros A l d. induction l as [|a l IH]; [reflexivity|].
  simpl. f_equal. rewrite <- seq_shift, map_map. exact IH.
Qed.

Lemma chunkSize_eq : chunkSize = 1152%nat.
Proof. reflexivity. Qed.

#[local] Opaque chunkSize.

Lemma mp3Chunks_concat : forall fuel i L R st,
  (List.length L <= i + fuel * chunkSize)%nat ->
  List.concat (map fst (mp3Chunks fuel i L R st)) = skipn i L.
Proof.
  induction fuel as [|f IH]; intros i L R st H; simpl.
  - rewrite skipn_all2 by lia. reflexivity.
  - destruct (Nat.ltb_spec i (List.length L)).
    + simpl. rewrite IH by lia.
      replace (i + chunkSize)%nat with (chunkSize + i)%nat by lia.
      rewrite <- skipn_skipn. apply firstn_skipn.
    + rewrite skipn_all2 by lia. reflexivity.
Qed.

Lemma ceil_step : forall n, (0 < n)%nat ->
  ((n + 1151) / 1152 = S ((n - 1152 + 1151) / 1152))%nat.
Proof.
  intros n Hn. destruct (Nat.le_gt_cases 1152 n).
  - replace (n + 1151)%nat with (1 * 1152 + (n - 1152 + 1151))%nat by lia.
    rewrite Nat.div_add_l by lia. lia.
  - replace (n - 1152)%nat with 0%nat by lia.
    replace (n + 1151)%nat with (1 * 1152 + (n - 1))%nat by lia.
    rewrite Nat.div_add_l by lia. rewrite (Nat.div_small (n - 1)) by lia.
    rewrite (Nat.div_small (0 + 1151)) by lia. reflexivity.
Qed.

Lemma mp3Chunks_length : forall fuel i L R st,
  (List.length L <= i + fuel * chunkSize)%nat ->
  List.length (mp3Chunks fuel i L R st) = ((List.length L - i + 1151) / 1152)%nat.
Proof.
  induction fuel as [|f IH]; intros i L R st H; cbn [mp3Chunks].
  - replace (List.length L - i)%nat with 0%nat by lia. reflexivity.
  - destruct (Nat.ltb_spec i (List.length L)).
    + cbn [List.length]. rewrite IH by lia. rewrite (ceil_step (List.length L - i)) by lia.
      rewrite chunkSize_eq. do 3 f_equal. lia.
    + replace (List.length L - i)%nat with 0%nat by lia. reflexivity.
Qed.

Lemma mp3Chunks_sizes : forall fuel i L R st,
  Forall (fun ch => (1 <= List.length (fst ch) <= chunkSize)%nat)
    (mp3Chunks fuel i L R st).
Proof.
  induction fuel as [|f IH]; intros i L R st; simpl; [constructor|].
  destruct (Nat.ltb_spec i (List.length L)); [|constructor].
  constructor; [|apply IH]. simpl.
  rewrite length_firstn, length_skipn, chunkSize_eq. lia.
Qed.

Lemma mp3Chunks_mono : forall fuel i L R st, st = false \/ R = None ->
  Forall (fun ch => snd ch = None) (mp3Chunks fuel i L R st).
Proof.
  induction fuel as [|f IH]; intros i L R st H; simpl; [constructor|].
  destruct (Nat.ltb_spec i (List.length L)); [|constructor].
  constructor; [|apply IH; exact H]. simpl.
  destruct H as [-> | ->]; [reflexivity | destruct st; reflexivity].
Qed.

Lemma mp3Chunks_stereo : forall fuel i L r,
  List.length r = List.length L ->
  (List.length L <= i + fuel * chunkSize)%nat ->
  List.concat (map (fun ch => match snd ch with Some x => x | None => [] end)
            (mp3Chunks fuel i L (Some r) true)) = skipn i r
  /\ Forall (fun ch => exists x, snd ch = Some x
                               /\ List.length x = List.length (fst ch))
       (mp3Chunks fuel i L (Some r) true).
Proof.
  induction fuel as [|f IH]; intros i L r Hr H; simpl.
  - rewrite skipn_all2 by lia. split; [reflexivity | constructor].
  - destruct (Nat.ltb_spec i (List.length L)).
    + simpl. destruct (IH (i + chunkSize)%nat L r Hr ltac:(lia)) as [A B].
      split.
      * rewrite A. replace (i + chunkSize)%nat with (chunkSize + i)%nat by lia.
        rewrite <- skipn_skipn. apply firstn_skipn.
      * constructor; [|exact B]. eexists. split; [reflexivity|]. simpl.
        rewrite !length_firstn, !length_skipn, Hr. reflexivity.
    + rewrite skipn_all2 by lia. split; [reflexivity | constructor].
Qed.

#[local] Transparent chunkSize.

Lemma scaledSample_low : forall x, x <= -1 -> Qtrunc (scaledSample x) = (-32768)%Z.
Proof.
  intros x H. unfold scaledSample. cbv zeta.
  assert (Hs : Qmax (-1) (Qmin 1 x) == -1).
  { rewrite Q.min_r by Lqa.lra. rewrite Q.max_l by exact H. reflexivity. }
  destruct (Qltb (Qmax (-1) (Qmin 1 x)) 0) eqn:E.
  - rewrite (Qtrunc_wd _ (-32768)) by (rewrite Hs; reflexivity). reflexivity.
  - exfalso. unfold Qltb in E. apply negb_false_iff, Qle_bool_iff in E. Lqa.lra.
Qed.

Lemma scaledSample_high : forall x, 1 <= x -> Qtrunc (scaledSample x) = 32767%Z.
Proof.
  intros x H. unfold scaledSample. cbv zeta.
  assert (Hs : Qmax (-1) (Qmin 1 x) == 1).
  { rewrite Q.min_l by exact H. rewrite Q.max_r by Lqa.lra. reflexivity. }
  destruct (Qltb (Qmax (-1) (Qmin 1 x)) 0) eqn:E.
  - exfalso. unfold Qltb in E. apply negb_true_iff in E.
    assert (~ 0 <= Qmax (-1) (Qmin 1 x)) as N.
    { intro N. apply Qle_bool_iff in N. congruence. }
    Lqa.lra.
  - rewrite (Qtrunc_wd _ 32767) by (rewrite Hs; reflexivity). reflexivity.
Qed.

(** X7: the 16-bit PCM value written for a float sample is monotone
    in the sample, saturates at -32768 for samples <= -1 and at 32767
    for samples >= 1, and is 0 for silence. *)
Theorem pcm_quantizer_monotone_saturating :
  (forall x y, x <= y -> (Qtrunc (scaledSample x) <= Qtrunc (scaledSample y))%Z)
  /\ (forall x, x <= -1 -> Qtrunc (scaledSample x) = (-32768)%Z)
  /\ (forall x, 1 <= x -> Qtrunc (scaledSample x) = 32767%Z)
  /\ Qtrunc (scaledSample 0) = 0%Z.
Proof.
  split; [|split; [exact scaledSample_low | split; [exact scaledSample_high | reflexivity]]].
  intros x y H. apply Qtrunc_mono, scaledSample_mono, H.
Qed.

(** X8: for every sample of every channel, [bufferToWav] produces
    bytes in which the little-endian signed 16-bit word at offset
    44 + 2 * (i * channels + c) decodes to the truncated scaled sample,
    a value within [-32768, 32767]. *)
Theorem bufferToWav_sample_roundtrip : forall b i c,
  (i < blength b)%nat -> (c < numberOfChannels b)%nat ->
  exists bytes, bufferToWav b = Some bytes
    /\ decodeInt16 bytes (44 + 2 * (i * numberOfChannels b + c))
       = Qtrunc (scaledSample (sample b c i))
    /\ (-32768 <= decodeInt16 bytes (44 + 2 * (i * numberOfChannels b + c)) <= 32767)%Z.
Proof.
  intros b i c Hi Hc.
  exists (wavHeader (sampleRate b) (blength b) (numberOfChannels b) ++ pcmBytes b).
  assert (D : decodeInt16 (wavHeader (sampleRate b) (blength b) (numberOfChannels b) ++ pcmBytes b)
                (44 + 2 * (i * numberOfChannels b + c)) = Qtrunc (scaledSample (sample b c i))).
  { unfold decodeInt16. rewrite read_le_sample by assumption.
    apply (int16_unwrap (Qtrunc (scaledSample (sample b c i)))), pcm_value_range. }
  split; [apply bufferToWav_layout|]. rewrite D. split; [reflexivity | apply pcm_value_range].
Qed.

Lemma bufferToWav_sample_roundtrip_witness :
  exists bytes,
    bufferToWav (mkBuffer 8 2 [[1 # 2; 3]; [-(1 # 4); -2]]) = Some bytes
    /\ decodeInt16 bytes (44 + 2 * (1 * 2 + 0)) = 32767%Z
    /\ (-32768 <= decodeInt16 bytes (44 + 2 * (1 * 2 + 0)) <= 32767)%Z.
Proof.
  destruct (bufferToWav_sample_roundtrip (mkBuffer 8 2 [[1 # 2; 3]; [-(1 # 4); -2]]) 1 0
              ltac:(cbn; lia) ltac:(cbn; lia)) as [bytes [E [D R]]].
  cbn [numberOfChannels channels List.length] in D, R.
  exists bytes. split; [exact E|]. split; [rewrite D; vm_compute; reflexivity | exact R].
Defined.

(** X9: on a well-formed buffer, the [Int16Array] the MP3 path builds
    for a channel holds exactly the PCM values the WAV path
    interleaves for that channel. *)
Theorem mp3_toInt16_matches_wav : forall b c,
  wf_buffer b -> (c < numberOfChannels b)%nat ->
  toInt16 (nth c (channels b) [])
  = map (fun i => nth (i * numberOfChannels b + c) (pcmSamples b) 0%Z) (seq 0 (blength b)).
Proof.
  intros b c Hw Hc.
  assert (Hl : List.length (nth c (channels b) []) = blength b).
  { unfold wf_buffer in Hw. rewrite Forall_forall in Hw. apply Hw, nth_In.
    unfold numberOfChannels in Hc. exact Hc. }
  unfold toInt16. rewrite (list_as_map_nth (nth c (channels b) []) 0) at 1.
  rewrite map_map, Hl. apply map_ext_in. intros i Hi. apply in_seq in Hi.
  rewrite pcmSamples_nth by lia. apply toInt16Value_scaled.
Qed.

Lemma mp3_toInt16_matches_wav_witness :
  wf_buffer (mkBuffer 8 2 [[1 # 2; 3]; [-(1 # 4); -2]]) /\ (1 < 2)%nat /\
  toInt16 (nth 1 (channels (mkBuffer 8 2 [[1 # 2; 3]; [-(1 # 4); -2]])) [])
  = map (fun i => nth (i * 2 + 1) (pcmSamples (mkBuffer 8 2 [[1 # 2; 3]; [-(1 # 4); -2]])) 0%Z)
      (seq 0 2).
Proof.
  assert (W : wf_buffer (mkBuffer 8 2 [[1 # 2; 3]; [-(1 # 4); -2]])).
  { unfold wf_buffer. cbn. repeat constructor. }
  split; [exact W | split; [lia|]].
  exact (mp3_toInt16_matches_wav (mkBuffer 8 2 [[1 # 2; 3]; [-(1 # 4); -2]]) 1 W
           ltac:(cbn; lia)).
Defined.

Lemma length_toInt16 : forall f, List.length (toInt16 f) = List.length f.
Proof. intros f. unfold toInt16. apply length_map. Qed.

(** X10: the MP3 loop passes the whole left channel to the encoder, in
    ceil(len / 1152) calls of 1 to 1152 samples; it passes a right
    chunk only when the buffer has exactly two channels, and then the
    right chunks cover channel 1 and match the left chunks in length. *)
Theorem mp3EncodeCalls_chunks : forall b,
  let left := toInt16 (nth 0 (channels b) []) in
  let calls := mp3EncodeCalls b in
  List.concat (map fst calls) = left
  /\ List.length calls = ((List.length left + 1151) / 1152)%nat
  /\ Forall (fun ch => (1 <= List.length (fst ch) <= 1152)%nat) calls
  /\ (numberOfChannels b <> 2%nat -> Forall (fun ch => snd ch = None) calls)
  /\ (numberOfChannels b = 2%nat -> wf_buffer b ->
        List.concat (map (fun ch => match snd ch with Some x => x | None => [] end) calls)
          = toInt16 (nth 1 (channels b) [])
        /\ Forall (fun ch => exists x, snd ch = Some x
                                     /\ List.length x = List.length (fst ch)) calls).
Proof.
  intros b left calls. subst left calls. unfold mp3EncodeCalls. cbv zeta.
  set (L := toInt16 (nth 0 (channels b) [])).
  assert (Hf : (List.length L <= 0 + S (List.length L) * chunkSize)%nat)
    by (rewrite chunkSize_eq; lia).
  split; [rewrite mp3Chunks_concat by exact Hf; reflexivity|].
  split; [rewrite mp3Chunks_length by exact Hf; rewrite Nat.sub_0_r; reflexivity|].
  split.
  { eapply Forall_impl; [|apply mp3Chunks_sizes]. intros ch H. rewrite chunkSize_eq in H. exact H. }
  split.
  - intros Hn. apply mp3Chunks_mono. left. apply Nat.eqb_neq, Hn.
  - intros Hn Hw. rewrite Hn. cbn [Nat.ltb Nat.leb Nat.eqb].
    assert (Hr : List.length (toInt16 (nth 1 (channels b) [])) = List.length L).
    { unfold L. rewrite !length_toInt16. unfold wf_buffer in Hw. rewrite Forall_forall in Hw.
      unfold numberOfChannels in Hn.
      rewrite !Hw by (apply nth_In; lia). reflexivity. }
    destruct (mp3Chunks_stereo (S (List.length L)) 0 L _ Hr Hf) as [A B].
    split; [exact A | exact B].
Qed.

(* ================================================================= *)
(** ** Render requests *)

Lemma renderStep_token : forall s e,
  renderToken (renderStep s e) = renderToken s \/ (e = RenderStart /\ renderToken (renderStep s e) = S (renderToken s)).
Proof.
  intros s [|t k p|]; simpl.
  - right. split; reflexivity.
  - left. unfold finishRender. destruct (Nat.eqb t (renderToken s)); reflexivity.
  - left. reflexivity.
Qed.

Lemma runRender_token : forall es s,
  (renderToken s <= renderToken (runRender es s))%nat
  /\ (In RenderStart es -> (renderToken s < renderToken (runRender es s))%nat).
Proof.
  induction es as [|e es IH]; intros s; simpl; [split; [lia | tauto]|].
  destruct (IH (renderStep s e)) as [A B].
  destruct (renderStep_token s e) as [E|[-> E]].
  - split; [lia|]. intros [->|H]; [simpl in E; lia | specialize (B H); lia].
  - split; [lia|]. intros _. lia.
Qed.

(** X13: of overlapping renders, only the last one started commits: a
    render finishing after a newer one started returns null, leaves
    the processed buffer, preset and created tracks as they are, and
    still clears [isProcessing]; the latest render commits its buffer
    and preset. *)
Theorem applyPremiumProcessing_latest_wins : forall s0 es k p,
  let t := fst (beginRender s0) in
  let s := runRender es (snd (beginRender s0)) in
  (In RenderStart es ->
     finishRender t k p s = (None, setProcessing false s)
     /\ committed (snd (finishRender t k p s)) = committed s)
  /\ (~ In RenderStart es ->
     fst (finishRender t k p s) = Some p
     /\ processedBuffer (snd (finishRender t k p s)) = Some p
     /\ selectedPreset (snd (finishRender t k p s)) = k
     /\ isProcessing (snd (finishRender t k p s)) = false).
Proof.
  intros s0 es k p t s.
  destruct (runRender_token es (snd (beginRender s0))) as [A B].
  assert (Ht : t = renderToken (snd (beginRender s0))) by reflexivity.
  split.
  - intros Hin. specialize (B Hin). fold s in A, B.
    unfold finishRender. replace (Nat.eqb t (renderToken s)) with false
      by (symmetry; apply Nat.eqb_neq; lia).
    split; reflexivity.
  - intros Hn.
    assert (Hs : renderToken s = t).
    { subst s. rewrite Ht. clear - Hn. generalize (snd (beginRender s0)).
      induction es as [|e es IH]; intros s; [reflexivity|]. simpl.
      destruct (renderStep_token s e) as [E|[-> _]].
      - rewrite IH, E; [reflexivity|]. intros H; apply Hn; right; exact H.
      - exfalso. apply Hn. left. reflexivity. }
    unfold finishRender. rewrite Hs, Nat.eqb_refl. simpl. repeat split.
Qed.

(* ================================================================= *)
(** ** Export file name *)

Section ExportNameProofs.
Local Open Scope nat_scope.
Local Open Scope string_scope.

Lemma countChar_app : forall c s1 s2, countChar c (s1 ++ s2) = countChar c s1 + countChar c s2.
Proof. intros c s1 s2. induction s1 as [|a s1 IH]; simpl; [reflexivity|]. rewrite IH. lia. Qed.

Lemma splitOn_head : forall c s,
  exists rest, s = nth 0 (splitOn c s) "" ++ rest
    /\ countChar c (nth 0 (splitOn c s) "") = 0
    /\ (rest = "" \/ exists r, rest = String c r).
Proof.
  intros c s. induction s as [|a s IH].
  - exists "". simpl. split; [reflexivity | split; [reflexivity | left; reflexivity]].
  - simpl. destruct (Ascii.eqb_spec a c) as [->|Hne].
    + exists (String c s). simpl. split; [reflexivity|]. split; [reflexivity|]. right. eexists; reflexivity.
    + destruct IH as [rest [E [C R]]].
      destruct (splitOn c s) as [|x xs] eqn:Es.
      * simpl in *. exists rest. split; [rewrite E at 1; reflexivity|].
        split; [|exact R]. destruct (Ascii.eqb_spec a c); [contradiction | reflexivity].
      * simpl in *. exists rest. split; [rewrite E at 1; reflexivity|].
        split; [|exact R]. destruct (Ascii.eqb_spec a c); [contradiction | exact C].
Qed.

(** X14: the export file name is
    trapmaster-pro-<preset>-<base>.<format>, where <base> is the part
    of the uploaded name before its first dot; the result contains
    exactly one dot. *)
Theorem exportFileName_shape : forall k name f,
  exists base rest,
    name = base ++ rest
    /\ countChar "." base = 0
    /\ (rest = "" \/ exists r, rest = String "." r)
    /\ exportFileName k name f
       = "trapmaster-pro-" ++ presetKeyString k ++ "-" ++ base ++ "." ++ formatString f
    /\ countChar "." (exportFileName k name f) = 1.
Proof.
  intros k name f. destruct (splitOn_head "." name) as [rest [E [C R]]].
  exists (nth 0 (splitOn "." name) ""), rest.
  split; [exact E|]. split; [exact C|]. split; [exact R|]. split; [reflexivity|].
  unfold exportFileName. rewrite !countChar_app, C.
  destruct k; destruct f; reflexivity.
Qed.

End ExportNameProofs.

(* ================================================================= *)
(** ** Loudness blocks *)

Lemma blockStarts_from : forall n fuel start blen step len, (1 <= step)%nat ->
  n = (if (start + blen <=? len)%nat then ((len - blen - start) / step + 1) else 0)%nat ->
  (n <= fuel)%nat ->
  blockStarts fuel start blen step len = map (fun j => start + j * step)%nat (seq 0 n).
Proof.
  induction n as [|n IH]; intros fuel start blen step len Hs Hn Hf.
  - destruct fuel as [|f]; [reflexivity|]. simpl.
    destruct (Nat.leb_spec (start + blen) len); [|reflexivity].
    exfalso. lia.
  - destruct fuel as [|f]; [lia|]. simpl.
    destruct (Nat.leb_spec (start + blen) len) as [Hle|]; [|lia].
    f_equal; [lia|].
    rewrite (IH f (start + step)%nat blen step len Hs).
    + rewrite <- seq_shift, map_map. apply map_ext. intros j. lia.
    + destruct (Nat.leb_spec (start + step + blen) len).
      * assert (Hd : ((len - blen - start) / step = S ((len - blen - (start + step)) / step))%nat).
        { replace (len - blen - start)%nat with (1 * step + (len - blen - (start + step)))%nat by lia.
          rewrite Nat.div_add_l by lia. reflexivity. }
        lia.
      * assert (((len - blen - start) / step = 0)%nat) by (apply Nat.div_small; lia). lia.
    + lia.
Qed.

Lemma blockStarts_schedule : forall sr len,
  blockStarts (S len) 0 (blockLen sr) (stepLen sr) len
  = map (fun j => j * stepLen sr)%nat (seq 0 (blockCount (blockLen sr) (stepLen sr) len)).
Proof.
  intros sr len.
  assert (Hs : (1 <= stepLen sr)%nat) by (unfold stepLen; lia).
  rewrite (blockStarts_from (blockCount (blockLen sr) (stepLen sr) len)); [| exact Hs | |].
  - reflexivity.
  - unfold blockCount. cbn [Nat.add]. rewrite Nat.sub_0_r. reflexivity.
  - unfold blockCount. destruct (Nat.leb_spec (blockLen sr) len); [|lia].
    assert (((len - blockLen sr) / stepLen sr <= len - blockLen sr)%nat)
      by (apply Nat.Div0.div_le_upper_bound; nia).
    lia.
Qed.

(** X11: the 400 ms gating blocks start at 0, step, 2 * step, ... for
    as long as a whole block fits, so there are
    (length - blockLen) / step + 1 of them when the buffer holds one
    block and none otherwise; the result is -Infinity exactly for
    buffers shorter than one block. *)
Theorem integratedLUFS_block_schedule : forall b,
  let sr := sampleRate b in
  blockStarts (S (blength b)) 0 (blockLen sr) (stepLen sr) (blength b)
  = map (fun j => j * stepLen sr)%nat (seq 0 (blockCount (blockLen sr) (stepLen sr) (blength b)))
  /\ List.length (blockLUFS b) = blockCount (blockLen sr) (stepLen sr) (blength b)
  /\ (integratedLUFS_R128Gated b = XNInf <-> (blength b < blockLen sr)%nat).
Proof.
  intros b sr.
  assert (E := blockStarts_schedule sr (blength b)).
  assert (L : List.length (blockLUFS b) = blockCount (blockLen sr) (stepLen sr) (blength b)).
  { unfold blockLUFS. fold sr. rewrite length_map, E, length_map, length_seq. reflexivity. }
  split; [exact E|]. split; [exact L|].
  assert (Hnil : blockLUFS b = [] <-> (blength b < blockLen sr)%nat).
  { rewrite <- length_zero_iff_nil, L. unfold blockCount.
    destruct (Nat.leb_spec (blockLen sr) (blength b)); lia. }
  rewrite <- Hnil. unfold integratedLUFS_R128Gated. cbv zeta.
  destruct (blockLUFS b); [tauto|].
  split; [|discriminate].
  destruct (absGate (r :: l)); [discriminate|].
  destruct (relGate (r0 :: l0)); discriminate.
Qed.

Open Scope R_scope.

Lemma fold_Rplus_shift : forall l s, fold_left Rplus l s = s + fold_left Rplus l 0.
Proof.
  induction l as [|x l IH]; intros s; simpl; [lra|].
  rewrite (IH (s + x)), (IH (0 + x)). lra.
Qed.

Lemma sum_lower : forall a l, l <> [] -> (forall x, In x l -> a < x) ->
  a * INR (List.length l) < fold_left Rplus l 0.
Proof.
  intros a l. induction l as [|x l IH]; intros Hne H; [congruence|].
  simpl fold_left. rewrite fold_Rplus_shift. cbn [List.length]. rewrite S_INR.
  assert (a < x) by (apply H; left; reflexivity).
  destruct l as [|y l'].
  - simpl. lra.
  - assert (a * INR (List.length (y :: l')) < fold_left Rplus (y :: l') 0).
    { apply IH; [discriminate | intros z Hz; apply H; right; exact Hz]. }
    lra.
Qed.

Lemma sum_upper : forall B l, (forall x, In x l -> x <= B) ->
  fold_left Rplus l 0 <= B * INR (List.length l).
Proof.
  intros B l. induction l as [|x l IH]; intros H; [simpl; lra|].
  simpl fold_left. rewrite fold_Rplus_shift. cbn [List.length]. rewrite S_INR.
  assert (x <= B) by (apply H; left; reflexivity).
  assert (fold_left Rplus l 0 <= B * INR (List.length l)) by (apply IH; intros z Hz; apply H; right; exact Hz).
  lra.
Qed.

Lemma list_max : forall l : list R, l <> [] -> exists m, In m l /\ forall x, In x l -> x <= m.
Proof.
  induction l as [|x l IH]; intros Hne; [congruence|].
  destruct l as [|y l'].
  - exists x. split; [left; reflexivity|]. intros z [<-|[]]. lra.
  - destruct (IH ltac:(discriminate)) as [m [Hm Hmax]].
    destruct (Rle_dec x m).
    + exists m. split; [right; exact Hm|]. intros z [<-|Hz]; [lra | apply Hmax, Hz].
    + exists x. split; [left; reflexivity|]. intros z [<-|Hz]; [lra|].
      apply Hmax in Hz. lra.
Qed.

Lemma blockPower_lt : forall x y, x < y -> blockPower x < blockPower y.
Proof.
  intros x y H. unfold blockPower, Rpower. apply exp_increasing.
  pose proof ln10_pos. apply Rmult_lt_compat_r; lra.
Qed.

Lemma blockPower_le : forall x y, x <= y -> blockPower x <= blockPower y.
Proof.
  intros x y [H|<-]; [left; apply blockPower_lt, H | right; reflexivity].
Qed.

Lemma blockPower_pos : forall x, 0 < blockPower x.
Proof. intros x. apply exp_pos. Qed.

Lemma tiny_lt_blockPower : forall x, -120 <= x -> 1e-12 < blockPower x.
Proof.
  intros x H.
  assert (E : exp (-12 * ln 10) = 1e-12).
  { replace (-12 * ln 10) with (- (INR 12 * ln 10)) by (rewrite INR_IZR_INZ; simpl; ring).
    rewrite exp_Ropp.
    change (exp (INR 12 * ln 10)) with (Rpower 10 (INR 12)).
    rewrite Rpower_pow by lra. simpl. field. }
  rewrite <- E. unfold blockPower, Rpower. apply exp_increasing.
  pose proof ln10_pos. apply Rmult_lt_compat_r; lra.
Qed.

Lemma msToLUFS_blockPower : forall y, -120 <= y -> msToLUFS (blockPower y) = y.
Proof.
  intros y H. unfold msToLUFS, log10.
  rewrite Rmax_right by (left; apply tiny_lt_blockPower, H).
  unfold blockPower, Rpower. rewrite ln_exp.
  pose proof ln10_pos.
  unfold Rdiv. rewrite (Rmult_assoc ((y + 0.691) * / 10)), Rinv_r by lra. lra.
Qed.

Lemma msToLUFS_le : forall m1 m2, 1e-12 <= m1 -> m1 <= m2 -> msToLUFS m1 <= msToLUFS m2.
Proof.
  intros m1 m2 H1 H2. unfold msToLUFS, log10.
  rewrite !Rmax_right by lra. pose proof ln10_pos.
  assert (ln m1 <= ln m2).
  { destruct H2 as [H2|<-]; [left; apply ln_increasing; lra | right; reflexivity]. }
  unfold Rdiv. apply Rplus_le_compat_l, Rmult_le_compat_l; [lra|].
  apply Rmult_le_compat_r; [left; apply Rinv_0_lt_compat; lra | exact H0].
Qed.

Lemma msToLUFS_lt : forall m1 m2, 1e-12 <= m1 -> m1 < m2 -> msToLUFS m1 < msToLUFS m2.
Proof.
  intros m1 m2 H1 H2. unfold msToLUFS, log10.
  rewrite !Rmax_right by lra. pose proof ln10_pos.
  assert (ln m1 < ln m2) by (apply ln_increasing; lra).
  unfold Rdiv. apply Rplus_lt_compat_l, Rmult_lt_compat_l; [lra|].
  apply Rmult_lt_compat_r; [apply Rinv_0_lt_compat; lra | exact H0].
Qed.

Lemma gated_mean_bounds : forall l, l <> [] -> (forall x, In x l -> absGateLUFS < x) ->
  absGateLUFS < msToLUFS (lufsBlocksToMeanSquare l)
  /\ exists x, In x l /\ msToLUFS (lufsBlocksToMeanSquare l) <= x.
Proof.
  intros l Hne Hgt. unfold absGateLUFS in *.
  assert (Hn : 0 < INR (List.length l)).
  { apply lt_0_INR. destruct l; [congruence | simpl; lia]. }
  assert (Hlo : blockPower (-70) < lufsBlocksToMeanSquare l).
  { unfold lufsBlocksToMeanSquare. apply Rmult_lt_reg_r with (INR (List.length l)); [exact Hn|].
    unfold Rdiv. rewrite Rmult_assoc, Rinv_l, Rmult_1_r by lra.
    rewrite <- (length_map blockPower l). apply sum_lower.
    - destruct l; [congruence | discriminate].
    - intros z Hz. apply in_map_iff in Hz. destruct Hz as [x [<- Hx]].
      apply blockPower_lt. specialize (Hgt x Hx). lra. }
  assert (Ha : 1e-12 <= blockPower (-70)) by (left; apply tiny_lt_blockPower; lra).
  split.
  - assert (E70 : msToLUFS (blockPower (-70)) = -70.0) by (rewrite msToLUFS_blockPower by lra; lra).
    rewrite <- E70. apply msToLUFS_lt; assumption.
  - destruct (list_max l Hne) as [xm [Hxm Hmax]].
    exists xm. split; [exact Hxm|].
    assert (Hup : lufsBlocksToMeanSquare l <= blockPower xm).
    { unfold lufsBlocksToMeanSquare. apply Rmult_le_reg_r with (INR (List.length l)); [exact Hn|].
      unfold Rdiv. rewrite Rmult_assoc, Rinv_l, Rmult_1_r by lra.
      rewrite <- (length_map blockPower l). apply sum_upper.
      intros z Hz. apply in_map_iff in Hz. destruct Hz as [x [<- Hx]].
      apply blockPower_le, Hmax, Hx. }
    specialize (Hgt xm Hxm).
    rewrite <- (msToLUFS_blockPower xm) by lra. apply msToLUFS_le; lra.
Qed.

Lemma absGate_spec : forall l x, In x (absGate l) -> In x l /\ absGateLUFS < x.
Proof.
  intros l x H. unfold absGate in H. apply filter_In in H. destruct H as [H1 H2].
  split; [exact H1|]. unfold Rgtb in H2. destruct (Rlt_dec absGateLUFS x); [exact r | discriminate].
Qed.

Lemma relGate_incl : forall l x, In x (relGate l) -> In x l.
Proof. intros l x H. unfold relGate in H. apply filter_In in H. tauto. Qed.

(** X12: a finite integrated loudness is either the absolute gate
    -70, or lies strictly above -70 and at most at the loudest block. *)
Theorem integratedLUFS_R128Gated_bounds : forall b v,
  integratedLUFS_R128Gated b = XFin v ->
  v = absGateLUFS
  \/ (absGateLUFS < v /\ exists x, In x (blockLUFS b) /\ v <= x).
Proof.
  intros b v H. unfold integratedLUFS_R128Gated in H. cbv zeta in H.
  destruct (blockLUFS b) as [|r l] eqn:Eb; [discriminate|].
  destruct (absGate (r :: l)) as [|a al] eqn:Ea.
  { left. inversion H. reflexivity. }
  assert (Hab : forall x, In x (a :: al) -> In x (r :: l) /\ absGateLUFS < x).
  { intros x Hx. rewrite <- Ea in Hx. apply absGate_spec, Hx. }
  right.
  destruct (relGate (a :: al)) as [|c cl] eqn:Er.
  - inversion H; subst v. unfold ungatedLUFS.
    destruct (gated_mean_bounds (a :: al) ltac:(discriminate) (fun x Hx => proj2 (Hab x Hx)))
      as [Lo [x [Hx Up]]].
    split; [exact Lo|]. exists x. split; [apply (Hab x Hx) | exact Up].
  - inversion H; subst v.
    assert (Hc : forall x, In x (c :: cl) -> In x (r :: l) /\ absGateLUFS < x).
    { intros x Hx. rewrite <- Er in Hx. apply relGate_incl in Hx. apply Hab, Hx. }
    destruct (gated_mean_bounds (c :: cl) ltac:(discriminate) (fun x Hx => proj2 (Hc x Hx)))
      as [Lo [x [Hx Up]]].
    split; [exact Lo|]. exists x. split; [apply (Hc x Hx) | exact Up].
Qed.

Lemma msToLUFS_1 : msToLUFS 1 = -0.691.
Proof.
  unfold msToLUFS, log10. rewrite Rmax_right by lra. rewrite ln_1. unfold Rdiv. lra.
Qed.

Lemma lufsBlocksToMeanSquare_single : lufsBlocksToMeanSquare [-0.691] = 1.
Proof.
  unfold lufsBlocksToMeanSquare. simpl.
  replace ((-0.691 + 0.691) / 10) with 0 by lra. rewrite Rpower_O by lra. lra.
Qed.

Lemma steadyBuffer_loudness : integratedLUFS_R128Gated steadyBuffer = XFin (-0.691).
Proof.
  assert (Hb : blockLUFS steadyBuffer = [-0.691]).
  { unfold blockLUFS.
    replace (blockStarts _ _ _ _ _) with [0%nat] by reflexivity.
    cbn [map]. f_equal.
    replace (Q2R (blockMeanSquare steadyBuffer (blockLen (sampleRate steadyBuffer)) 0)) with 1.
    - apply msToLUFS_1.
    - vm_compute (blockMeanSquare _ _ _). unfold Q2R. simpl. field. }
  assert (Ha : absGate [-0.691] = [-0.691]).
  { unfold absGate, Rgtb, absGateLUFS. simpl. destruct (Rlt_dec (-70.0) (-0.691)); [reflexivity | lra]. }
  assert (Hu : ungatedLUFS [-0.691] = -0.691).
  { unfold ungatedLUFS. rewrite lufsBlocksToMeanSquare_single. apply msToLUFS_1. }
  assert (Hr : relGate [-0.691] = [-0.691]).
  { unfold relGate. rewrite Hu. simpl. unfold Rgtb.
    destruct (Rlt_dec (-0.691 - 10.0) (-0.691)); [reflexivity | lra]. }
  unfold integratedLUFS_R128Gated. cbv zeta. rewrite Hb, Ha, Hr.
  rewrite lufsBlocksToMeanSquare_single, msToLUFS_1. reflexivity.
Qed.

Lemma integratedLUFS_R128Gated_bounds_witness :
  integratedLUFS_R128Gated steadyBuffer = XFin (-0.691)
  /\ (-0.691 = absGateLUFS
      \/ (absGateLUFS < -0.691 /\ exists x, In x (blockLUFS steadyBuffer) /\ -0.691 <= x)).
Proof.
  split; [exact steadyBuffer_loudness|].
  exact (integratedLUFS_R128Gated_bounds steadyBuffer (-0.691) steadyBuffer_loudness).
Defined.
